(** * Kafka Lens: a shallow embedding of [kafka_lens.py]

    The command-line tool reads cluster metadata through an administrative
    client and a consumer client, classifies what it reads (healthy or not,
    high lag or normal, stale or active, unused or used) and prints a report.
    This development embeds the class [KafkaLens] and the command surface and
    proves the properties its specification states about them.

    Conventions of the embedding.
    - Python integers are [Z]; dictionaries received from the client library
      are [gmap]s (their iteration order never influences a result that is
      proved here); the dictionary [group_lags], which the program builds and
      then prints in insertion order, is an association list.
    - A call into the client library either returns or raises: [result].
    - [click.echo] appends a [Line] to the console; every call into the client
      library is appended to a call log.  Both live in the state [State] that
      the commands thread through the monad [M], next to the two fields of
      the [KafkaLens] object.
    - [datetime.now()] reads a clock; a reading is a number of microseconds
      since the epoch (the resolution of [datetime]).  Commit and message
      timestamps are milliseconds, as in the client library.  The program
      compares them after converting the clock reading to (floating point)
      milliseconds; the embedding compares the same quantities exactly, in
      microseconds. *)

From stdpp Require Import base list strings gmap fin_maps pretty.
From Stdlib Require Import ZArith Lia Ascii.

Open Scope Z_scope.

(** ** Results of library calls *)

(** The message carried by a Python [Exception]. *)
Definition exn : Type := string.

Inductive result (A : Type) : Type :=
  | Ok (a : A)
  | Raise (e : exn).
Arguments Ok {A} a.
Arguments Raise {A} e.

(** ** Data exchanged with the client library *)

(** [TopicPartition(topic, partition)]. *)
Definition TopicPartition : Type := string * Z.
Definition tp_topic (tp : TopicPartition) : string := tp.1.
Definition tp_partition (tp : TopicPartition) : Z := tp.2.

(** The value type of a committed-offset dictionary. *)
Record OffsetAndMetadata : Type := mkOffsetAndMetadata {
  offset : Z;
  commit_timestamp : Z
}.

(** A record returned by [poll]; only its timestamp is read. *)
Record ConsumerRecord : Type := mkConsumerRecord {
  timestamp : Z
}.

(** One entry of [topic_info.partitions]. *)
Record PartitionInfo : Type := mkPartitionInfo {
  replicas : list Z;
  isr : list Z
}.

Record TopicInfo : Type := mkTopicInfo {
  partitions : gmap Z PartitionInfo
}.

(** The dictionary returned by [describe_cluster], with the three keys the
    program reads. *)
Record ClusterMetadata : Type := mkClusterMetadata {
  brokers : list Z;
  nodes : list Z;
  controller : Z
}.

(** ** The call log *)

Inductive AdminCall : Type :=
  | ADescribeCluster
  | AListTopics
  | ADescribeTopics (names : list string)
  | AListConsumerGroups
  | AListConsumerGroupOffsets (group_id : string)
  | AGetTopicEndOffsets (tps : list TopicPartition)
  | ADeleteConsumerGroups (groups : list string)
  | ADeleteTopics (topics : list string)
  | AClose.

Inductive ConsumerCall : Type :=
  | CPartitionsForTopic (topic : string)
  | CEndOffsets (ps : list Z)
  | CSeekToEnd (p : Z)
  | CSeek (p : Z) (off : Z)
  | CPoll (timeout_ms : Z)
  | CCommit
  | CClose.

(** The keyword arguments the program passes to [KafkaConsumer]. *)
Record ConsumerConfig : Type := mkConsumerConfig {
  cc_bootstrap_servers : list string;
  cc_security_protocol : string;
  cc_auto_offset_reset : string;
  cc_enable_auto_commit : bool;
  cc_sasl : option (string * option string * option string)
}.

(** The keyword arguments the program passes to [KafkaAdminClient]. *)
Record AdminConfig : Type := mkAdminConfig {
  ac_bootstrap_servers : list string;
  ac_client_id : string;
  ac_security_protocol : string;
  ac_sasl : option (string * option string * option string);
  ac_ssl_context : option (option string * option string * option string)
}.

Inductive Call : Type :=
  | NewAdmin (cfg : AdminConfig)
  | NewConsumer (cfg : ConsumerConfig)
  | Admin (c : AdminCall)
  | Consumer (c : ConsumerCall).

#[global] Instance AdminCall_eq_dec : EqDecision AdminCall.
Proof. solve_decision. Defined.
#[global] Instance ConsumerCall_eq_dec : EqDecision ConsumerCall.
Proof. solve_decision. Defined.

(** ** The two clients

    The administrative client answers from a snapshot of the cluster: its
    answers depend on the arguments only.  The answers of the consumer depend
    on what it was asked before (a [poll] returns what the preceding [seek]
    positioned it on), so each of its operations also receives the log of the
    calls made so far. *)

Record KafkaAdminClient : Type := mkKafkaAdminClient {
  describe_cluster : result ClusterMetadata;
  list_topics : result (list string);
  describe_topics : list string → result (gmap string TopicInfo);
  list_consumer_groups : result (list string);
  list_consumer_group_offsets :
    string → result (gmap TopicPartition OffsetAndMetadata);
  get_topic_end_offsets :
    list TopicPartition → result (gmap TopicPartition Z);
  delete_consumer_groups : list string → result unit;
  delete_topics : list string → result unit
}.

Record KafkaConsumer : Type := mkKafkaConsumer {
  partitions_for_topic : list Call → string → result (option (list Z));
  end_offsets : list Call → list Z → result (gmap Z Z);
  seek_to_end : list Call → Z → result unit;
  seek : list Call → Z → Z → result unit;
  poll : list Call → Z → result (gmap TopicPartition (list ConsumerRecord))
}.

(** ** Console output *)

(** Why a group or a topic is listed: the strings ["No commits"] and
    [f"{days_old:.1f} days old"]; the second carries the age it renders, in
    microseconds. *)
Inductive Reason : Type :=
  | NoCommits
  | DaysOld (age_us : Z).

(** One constructor per [click.echo] of the program. *)
Inductive Line : Type :=
  | CloudConnectError (e : exn)
  | AdminConnectError (e : exn)
  | ConsumerCreateError (e : exn)
  (* health_check *)
  | HealthChecking
  | HealthReportHeader
  | BrokersFound (connected total : Z)
  | ControllerId (id : Z)
  | UrpOk (n : Z)
  | UrpWarning (n : Z)
  | ClusterHealthy
  | ClusterHasIssues
  | HealthError (e : exn)
  (* check_lag *)
  | LagChecking
  | LagWarning (group_id : string) (e : exn)
  | LagNoGroups
  | LagReportHeader
  | LagHigh (group_id : string) (lag : Z)
  | LagNormal (group_id : string) (lag : Z)
  | LagHighSummary (n : nat)
  | LagAllNormal
  | LagError (e : exn)
  (* find_stale_consumers *)
  | StaleFinding
  | StaleWarning (group_id : string) (e : exn)
  | StaleFound (n : nat)
  | StaleItem (group_id : string) (reason : Reason)
  | StaleNone
  | StaleError (e : exn)
  (* find_unused_topics *)
  | UnusedFinding
  | UnusedWarning (topic : string) (e : exn)
  | UnusedFound (n : nat)
  | UnusedItem (topic : string) (reason : Reason)
  | UnusedNone
  | UnusedError (e : exn)
  (* delete_consumer_group, delete_topic *)
  | OperationCancelled
  | GroupDeleted (group_name : string)
  | GroupDeleteError (e : exn)
  | TopicDeleted (topic_name : string)
  | TopicDeleteError (e : exn).

(** ** Configuration and environment *)

(** The keys of the YAML file that the modelled code reads. *)
Record Config : Type := mkConfig {
  security_protocol : option string;
  sasl_mechanism : option string;
  sasl_plain_username : option string;
  sasl_plain_password : option string;
  ssl_cafile : option string;
  ssl_certfile : option string;
  ssl_keyfile : option string;
  lag_threshold : option Z;
  stale_consumer_days : option Z;
  unused_topic_days : option Z
}.

(** What one process invocation finds outside the program. *)
Record Env : Type := mkEnv {
  config : Config;
  (** [_get_bootstrap_servers]: the server list, or the error of the managed
      cluster lookup *)
  bootstrap_servers : result (list string);
  (** the constructors of the client library *)
  new_admin_client : AdminConfig → result KafkaAdminClient;
  new_consumer : ConsumerConfig → result KafkaConsumer;
  (** [clock k]: the reading of the [k]-th call of [datetime.now()] *)
  clock : nat → Z;
  (** what the user types at [click.prompt] *)
  prompt_input : string
}.

(** ** State and monad *)

Record State : Type := mkState {
  self_admin_client : option KafkaAdminClient;
  self_consumer : option KafkaConsumer;
  console : list Line;
  calls : list Call;
  clock_reads : nat
}.

(** How a piece of the program ends: it returns, raises an [Exception], or
    leaves through [sys.exit]. *)
Inductive outcome (A : Type) : Type :=
  | Ret (a : A)
  | Exc (e : exn)
  | SysExit (code : Z).
Arguments Ret {A} a.
Arguments Exc {A} e.
Arguments SysExit {A} code.

Definition M (A : Type) : Type := State → outcome A * State.

Definition ret {A} (a : A) : M A := λ s, (Ret a, s).

Definition bind {A B} (m : M A) (k : A → M B) : M B := λ s,
  match m s with
  | (Ret a, s') => k a s'
  | (Exc e, s') => (Exc e, s')
  | (SysExit c, s') => (SysExit c, s')
  end.

Notation "'let*' x ':=' m 'in' k" := (bind m (λ x, k))
  (at level 10, x name, m at level 100, k at level 200).
Notation "'run' m 'in' k" := (bind m (λ _, k))
  (at level 10, m at level 100, k at level 200).

Definition raise {A} (e : exn) : M A := λ s, (Exc e, s).

Definition sys_exit {A} (code : Z) : M A := λ s, (SysExit code, s).

(** [try: m except Exception as e: h e]; [sys.exit] is not an [Exception]
    and passes through. *)
Definition try_except {A} (m : M A) (h : exn → M A) : M A := λ s,
  match m s with
  | (Exc e, s') => h e s'
  | r => r
  end.

Definition echo (l : Line) : M unit := λ s,
  (Ret tt, mkState (self_admin_client s) (self_consumer s)
                   (console s ++ [l]) (calls s) (clock_reads s)).

Definition log_call (c : Call) : M unit := λ s,
  (Ret tt, mkState (self_admin_client s) (self_consumer s)
                   (console s) (calls s ++ [c]) (clock_reads s)).

Definition lift {A} (r : result A) : M A :=
  match r with
  | Ok a => ret a
  | Raise e => raise e
  end.

(** A call of the administrative client: logged, then answered. *)
Definition admin_call {A} (c : AdminCall) (r : result A) : M A :=
  run log_call (Admin c) in lift r.

(** A call of the consumer: answered from the log so far, then logged. *)
Definition consumer_call {A} (c : ConsumerCall) (r : list Call → result A)
    : M A := λ s,
  (run log_call (Consumer c) in lift (r (calls s))) s.

(** ** Python helpers *)

(** [len] of a list. *)
Definition len {A} (l : list A) : Z := Z.of_nat (length l).

(** [s.startswith(prefix)]. *)
Definition startswith (s prefix : string) : bool := String.prefix prefix s.

(** [not d] for a dictionary [d]. *)
Definition dict_is_empty {K} `{Countable K} {V} (d : gmap K V) : bool :=
  bool_decide (size d = 0%nat).

(** [list(d.keys())] and [d.values()]. *)
Definition dict_keys {K} `{Countable K} {V} (d : gmap K V) : list K :=
  (map_to_list d).*1.
Definition dict_values {K} `{Countable K} {V} (d : gmap K V) : list V :=
  (map_to_list d).*2.

Definition KeyError : exn := "KeyError".
Definition ValueError : exn := "max() arg is an empty sequence".

(** [max(iterable)]: the first element, replaced by every later element that
    is greater; [ValueError] on an empty iterable. *)
Definition py_max (l : list Z) : result Z :=
  match l with
  | [] => Raise ValueError
  | x :: rest => Ok (foldl (λ m y, if y >? m then y else m) x rest)
  end.

(** [d[k] = v] on a dictionary kept in insertion order. *)
Fixpoint dict_set (k : string) (v : Z) (d : list (string * Z))
    : list (string * Z) :=
  match d with
  | [] => [(k, v)]
  | (k', v') :: d' =>
      if decide (k = k') then (k, v) :: d' else (k', v') :: dict_set k v d'
  end.

Fixpoint dict_get (k : string) (d : list (string * Z)) : option Z :=
  match d with
  | [] => None
  | (k', v') :: d' => if decide (k = k') then Some v' else dict_get k d'
  end.

(** [c.lower()] on an ASCII character, and [s.lower()].  On the bytes of a
    character outside ASCII it is the identity, which cannot produce or
    destroy the one-byte string ["y"]. *)
Definition lower_ascii (c : ascii) : ascii :=
  let n := Ascii.N_of_ascii c in
  if ((65 <=? n) && (n <=? 90))%N then Ascii.ascii_of_N (n + 32) else c.

Fixpoint lower (s : string) : string :=
  match s with
  | EmptyString => EmptyString
  | String c s' => String (lower_ascii c) (lower s')
  end.

(** What [click.prompt] makes of the text typed: an empty input is replaced
    by the default. *)
Definition prompt_value (typed dflt : string) : string :=
  match typed with
  | EmptyString => dflt
  | _ => typed
  end.

(** One day and one millisecond, in microseconds. *)
Definition us_per_day : Z := 86400000000.
Definition us_per_ms : Z := 1000.

(** ** The class [KafkaLens] *)

Section KafkaLens.

Variable env : Env.

(** [self.config.get(key, default)]. *)
Definition config_get {A} (key : Config → option A) (dflt : A) : A :=
  default dflt (key (config env)).

Definition set_admin_client (c : KafkaAdminClient) : M unit := λ s,
  (Ret tt, mkState (Some c) (self_consumer s)
                   (console s) (calls s) (clock_reads s)).

Definition set_consumer (c : KafkaConsumer) : M unit := λ s,
  (Ret tt, mkState (self_admin_client s) (Some c)
                   (console s) (calls s) (clock_reads s)).

(** [datetime.now()], as microseconds since the epoch. *)
Definition now : M Z := λ s,
  (Ret (clock env (clock_reads s)),
   mkState (self_admin_client s) (self_consumer s)
           (console s) (calls s) (S (clock_reads s))).

(** [click.prompt(text, default=d)]: the text typed, or [d] when nothing was
    typed. *)
Definition click_prompt (dflt : string) : M string :=
  ret (prompt_value (prompt_input env) dflt).

(** [_get_bootstrap_servers]; the managed-cluster lookup reports its own
    failure and exits. *)
Definition _get_bootstrap_servers : M (list string) :=
  match bootstrap_servers env with
  | Ok servers => ret servers
  | Raise e => run echo (CloudConnectError e) in sys_exit 1
  end.

Definition sasl_settings : option (string * option string * option string) :=
  match sasl_mechanism (config env) with
  | Some mech =>
      Some (mech, sasl_plain_username (config env),
            sasl_plain_password (config env))
  | None => None
  end.

Definition ssl_settings
    : option (option string * option string * option string) :=
  match ssl_cafile (config env), ssl_certfile (config env),
        ssl_keyfile (config env) with
  | None, None, None => None
  | ca, cert, key => Some (ca, cert, key)
  end.

(** [_get_admin_client]: get or create the admin client. *)
Definition _get_admin_client : M KafkaAdminClient := λ s,
  match self_admin_client s with
  | Some c => ret c s
  | None =>
      (let* servers := _get_bootstrap_servers in
       let client_config :=
         mkAdminConfig servers "kafka-lens"
           (config_get security_protocol "PLAINTEXT")
           sasl_settings ssl_settings in
       run log_call (NewAdmin client_config) in
       match new_admin_client env client_config with
       | Ok c => run set_admin_client c in ret c
       | Raise e => run echo (AdminConnectError e) in sys_exit 1
       end) s
  end.

(** [_get_consumer]: get or create the consumer used for topic analysis. *)
Definition _get_consumer : M KafkaConsumer := λ s,
  match self_consumer s with
  | Some c => ret c s
  | None =>
      (let* servers := _get_bootstrap_servers in
       let consumer_config :=
         mkConsumerConfig servers
           (config_get security_protocol "PLAINTEXT")
           "latest" false sasl_settings in
       run log_call (NewConsumer consumer_config) in
       match new_consumer env consumer_config with
       | Ok c => run set_consumer c in ret c
       | Raise e => run echo (ConsumerCreateError e) in sys_exit 1
       end) s
  end.

(** *** [health_check] *)

(** The loop over [topic_info.partitions.items()]. *)
Definition count_urp_partitions (items : list (Z * PartitionInfo))
    (urp_count : Z) : Z :=
  foldl (λ urp_count item,
           let replicas_count := len (replicas item.2) in
           let isr_count := len (isr item.2) in
           if isr_count <? replicas_count then urp_count + 1 else urp_count)
        urp_count items.

(** The loop over [topic_metadata.items()]. *)
Definition count_urp (topic_metadata : gmap string TopicInfo)
    (urp_count : Z) : Z :=
  foldl (λ urp_count item,
           count_urp_partitions (map_to_list (partitions item.2)) urp_count)
        urp_count (map_to_list topic_metadata).

Definition non_internal (topics : list string) : list string :=
  List.filter (λ topic, negb (startswith topic "__")) topics.

Definition health_check : M unit :=
  run echo HealthChecking in
  let* admin_client := _get_admin_client in
  try_except
    (let* metadata :=
       admin_call ADescribeCluster (describe_cluster admin_client) in
     let total_brokers := len (brokers metadata) in
     let connected_brokers := len (nodes metadata) in
     let controller_id := controller metadata in
     let* topics := admin_call AListTopics (list_topics admin_client) in
     let non_internal_topics := non_internal topics in
     let* urp_count :=
       match non_internal_topics with
       | [] => ret 0
       | _ =>
           let* topic_metadata :=
             admin_call (ADescribeTopics non_internal_topics)
                        (describe_topics admin_client non_internal_topics) in
           ret (count_urp topic_metadata 0)
       end in
     run echo HealthReportHeader in
     run echo (BrokersFound connected_brokers total_brokers) in
     run echo (ControllerId controller_id) in
     run (if urp_count =? 0 then echo (UrpOk urp_count)
          else echo (UrpWarning urp_count)) in
     if (connected_brokers =? total_brokers) && (urp_count =? 0)
     then echo ClusterHealthy
     else echo ClusterHasIssues)
    (λ e, echo (HealthError e)).

(** *** [check_lag] *)

(** The loop [for tp in partitions] that accumulates [total_lag]. *)
Fixpoint sum_partition_lags
    (committed_offsets : gmap TopicPartition OffsetAndMetadata)
    (latest_offsets : gmap TopicPartition Z)
    (tps : list TopicPartition) (total_lag : Z) : result Z :=
  match tps with
  | [] => Ok total_lag
  | tp :: rest =>
      match latest_offsets !! tp with
      | Some latest_offset =>
          match committed_offsets !! tp with
          | Some om =>
              let committed_offset := offset om in
              let partition_lag := Z.max 0 (latest_offset - committed_offset) in
              sum_partition_lags committed_offsets latest_offsets rest
                                 (total_lag + partition_lag)
          | None => Raise KeyError
          end
      | None =>
          sum_partition_lags committed_offsets latest_offsets rest total_lag
      end
  end.

(** The [try] block in the body of [for group_id in groups]. *)
Definition check_lag_group_try (admin_client : KafkaAdminClient)
    (group_lags : list (string * Z)) (group_id : string)
    : M (list (string * Z)) :=
  let* committed_offsets :=
    admin_call (AListConsumerGroupOffsets group_id)
               (list_consumer_group_offsets admin_client group_id) in
  if dict_is_empty committed_offsets then ret group_lags
  else
    let tps := dict_keys committed_offsets in
    let* latest_offsets :=
      admin_call (AGetTopicEndOffsets tps)
                 (get_topic_end_offsets admin_client tps) in
    let* total_lag :=
      lift (sum_partition_lags committed_offsets latest_offsets tps 0) in
    ret (dict_set group_id total_lag group_lags).

(** The body of [for group_id in groups]: the [try] block and its
    [except Exception] handler. *)
Definition check_lag_group (admin_client : KafkaAdminClient)
    (group_lags : list (string * Z)) (group_id : string)
    : M (list (string * Z)) :=
  try_except
    (check_lag_group_try admin_client group_lags group_id)
    (λ e, run echo (LagWarning group_id e) in ret group_lags).

Fixpoint check_lag_groups (admin_client : KafkaAdminClient)
    (groups : list string) (group_lags : list (string * Z))
    : M (list (string * Z)) :=
  match groups with
  | [] => ret group_lags
  | group_id :: rest =>
      let* group_lags := check_lag_group admin_client group_lags group_id in
      check_lag_groups admin_client rest group_lags
  end.

(** The loop over [group_lags.items()] that prints the report. *)
Fixpoint report_lags (lag_threshold : Z) (items : list (string * Z))
    (high_lag_groups : list (string * Z)) : M (list (string * Z)) :=
  match items with
  | [] => ret high_lag_groups
  | (group_id, lag) :: rest =>
      if lag >? lag_threshold then
        run echo (LagHigh group_id lag) in
        report_lags lag_threshold rest (high_lag_groups ++ [(group_id, lag)])
      else
        run echo (LagNormal group_id lag) in
        report_lags lag_threshold rest high_lag_groups
  end.

Definition check_lag : M unit :=
  run echo LagChecking in
  let* admin_client := _get_admin_client in
  let lag_threshold := config_get lag_threshold 1000 in
  try_except
    (let* groups :=
       admin_call AListConsumerGroups (list_consumer_groups admin_client) in
     let* group_lags := check_lag_groups admin_client groups [] in
     match group_lags with
     | [] => echo LagNoGroups
     | _ =>
         run echo LagReportHeader in
         let* high_lag_groups := report_lags lag_threshold group_lags [] in
         match high_lag_groups with
         | [] => echo LagAllNormal
         | _ => echo (LagHighSummary (length high_lag_groups))
         end
     end)
    (λ e, echo (LagError e)).

(** *** [find_stale_consumers] *)

(** The [try] block in the body of [for group_id in groups].
    [threshold_ts] is in microseconds. *)
Definition find_stale_group_try (admin_client : KafkaAdminClient)
    (threshold_ts : Z) (stale_groups : list (string * Reason))
    (group_id : string) : M (list (string * Reason)) :=
  let* offsets :=
    admin_call (AListConsumerGroupOffsets group_id)
               (list_consumer_group_offsets admin_client group_id) in
  if dict_is_empty offsets then
    ret (stale_groups ++ [(group_id, NoCommits)])
  else
    let* latest_commit :=
      lift (py_max (commit_timestamp <$> dict_values offsets)) in
    if latest_commit * us_per_ms <? threshold_ts then
      let* t := now in
      let days_old := t - latest_commit * us_per_ms in
      ret (stale_groups ++ [(group_id, DaysOld days_old)])
    else ret stale_groups.

(** The body of [for group_id in groups]: the [try] block and its
    [except Exception] handler. *)
Definition find_stale_group (admin_client : KafkaAdminClient)
    (threshold_ts : Z) (stale_groups : list (string * Reason))
    (group_id : string) : M (list (string * Reason)) :=
  try_except
    (find_stale_group_try admin_client threshold_ts stale_groups group_id)
    (λ e, run echo (StaleWarning group_id e) in ret stale_groups).

Fixpoint find_stale_groups (admin_client : KafkaAdminClient)
    (threshold_ts : Z) (groups : list string)
    (stale_groups : list (string * Reason)) : M (list (string * Reason)) :=
  match groups with
  | [] => ret stale_groups
  | group_id :: rest =>
      let* stale_groups :=
        find_stale_group admin_client threshold_ts stale_groups group_id in
      find_stale_groups admin_client threshold_ts rest stale_groups
  end.

Fixpoint echo_all (lines : list Line) : M unit :=
  match lines with
  | [] => ret tt
  | l :: rest => run echo l in echo_all rest
  end.

Definition find_stale_consumers : M unit :=
  run echo StaleFinding in
  let* admin_client := _get_admin_client in
  let stale_days := config_get stale_consumer_days 30 in
  let* t0 := now in
  let threshold_ts := t0 - stale_days * us_per_day in
  try_except
    (let* groups :=
       admin_call AListConsumerGroups (list_consumer_groups admin_client) in
     let* stale_groups :=
       find_stale_groups admin_client threshold_ts groups [] in
     match stale_groups with
     | [] => echo StaleNone
     | _ =>
         run echo (StaleFound (length stale_groups)) in
         echo_all ((λ item, StaleItem item.1 item.2) <$> stale_groups)
     end)
    (λ e, echo (StaleError e)).

(** *** [find_unused_topics] *)

(** The loop over [messages.items()] after one [poll]. *)
Definition scan_messages (partition : Z)
    (items : list (TopicPartition * list ConsumerRecord))
    (latest_timestamp : Z) : Z :=
  foldl (λ latest_timestamp item,
           if tp_partition item.1 =? partition then
             match item.2 with
             | m :: _ => Z.max latest_timestamp (timestamp m)
             | [] => latest_timestamp
             end
           else latest_timestamp)
        latest_timestamp items.

(** The loop [for partition in partitions]. *)
Fixpoint inspect_partitions (consumer : KafkaConsumer)
    (offsets : gmap Z Z) (ps : list Z) (latest_timestamp : Z) : M Z :=
  match ps with
  | [] => ret latest_timestamp
  | partition :: rest =>
      match offsets !! partition with
      | None => raise KeyError
      | Some end_offset =>
          if end_offset >? 0 then
            run consumer_call (CSeekToEnd partition)
                  (λ h, seek_to_end consumer h partition) in
            run consumer_call (CSeek partition (end_offset - 1))
                  (λ h, seek consumer h partition (end_offset - 1)) in
            let* messages :=
              consumer_call (CPoll 1000) (λ h, poll consumer h 1000) in
            inspect_partitions consumer offsets rest
              (scan_messages partition (map_to_list messages)
                             latest_timestamp)
          else inspect_partitions consumer offsets rest latest_timestamp
      end
  end.

(** The [try] block in the body of [for topic in non_internal_topics].
    [threshold_ts] is in microseconds. *)
Definition find_unused_topic_try (consumer : KafkaConsumer)
    (threshold_ts : Z) (unused_topics : list (string * Reason))
    (topic : string) : M (list (string * Reason)) :=
  let* ps :=
    consumer_call (CPartitionsForTopic topic)
                  (λ h, partitions_for_topic consumer h topic) in
  match ps with
  | None | Some [] => ret unused_topics
  | Some ps =>
      let* offsets :=
        consumer_call (CEndOffsets ps) (λ h, end_offsets consumer h ps) in
      let* latest_timestamp := inspect_partitions consumer offsets ps 0 in
      if (latest_timestamp >? 0)
         && (latest_timestamp * us_per_ms <? threshold_ts) then
        let* t := now in
        let days_old := t - latest_timestamp * us_per_ms in
        ret (unused_topics ++ [(topic, DaysOld days_old)])
      else ret unused_topics
  end.

(** The body of [for topic in non_internal_topics]: the [try] block and its
    [except Exception] handler. *)
Definition find_unused_topic (consumer : KafkaConsumer) (threshold_ts : Z)
    (unused_topics : list (string * Reason)) (topic : string)
    : M (list (string * Reason)) :=
  try_except
    (find_unused_topic_try consumer threshold_ts unused_topics topic)
    (λ e, run echo (UnusedWarning topic e) in ret unused_topics).

Fixpoint find_unused_in (consumer : KafkaConsumer) (threshold_ts : Z)
    (topics : list string) (unused_topics : list (string * Reason))
    : M (list (string * Reason)) :=
  match topics with
  | [] => ret unused_topics
  | topic :: rest =>
      let* unused_topics :=
        find_unused_topic consumer threshold_ts unused_topics topic in
      find_unused_in consumer threshold_ts rest unused_topics
  end.

Definition find_unused_topics : M unit :=
  run echo UnusedFinding in
  let* admin_client := _get_admin_client in
  let* consumer := _get_consumer in
  let unused_days := config_get unused_topic_days 90 in
  let* t0 := now in
  let threshold_ts := t0 - unused_days * us_per_day in
  try_except
    (let* topics := admin_call AListTopics (list_topics admin_client) in
     let non_internal_topics := non_internal topics in
     let* unused_topics :=
       find_unused_in consumer threshold_ts non_internal_topics [] in
     match unused_topics with
     | [] => echo UnusedNone
     | _ =>
         run echo (UnusedFound (length unused_topics)) in
         echo_all ((λ item, UnusedItem item.1 item.2) <$> unused_topics)
     end)
    (λ e, echo (UnusedError e)).

(** *** [delete_consumer_group] and [delete_topic] *)

Definition delete_consumer_group (group_name : string) : M unit :=
  let* admin_client := _get_admin_client in
  let* confirm := click_prompt "N" in
  if negb (String.eqb (lower confirm) "y") then echo OperationCancelled
  else
    try_except
      (run admin_call (ADeleteConsumerGroups [group_name])
             (delete_consumer_groups admin_client [group_name]) in
       echo (GroupDeleted group_name))
      (λ e, echo (GroupDeleteError e)).

Definition delete_topic (topic_name : string) : M unit :=
  let* admin_client := _get_admin_client in
  let* confirm := click_prompt "N" in
  if negb (String.eqb (lower confirm) "y") then echo OperationCancelled
  else
    try_except
      (run admin_call (ADeleteTopics [topic_name])
             (delete_topics admin_client [topic_name]) in
       echo (TopicDeleted topic_name))
      (λ e, echo (TopicDeleteError e)).

(** *** [close] *)

Definition close : M unit := λ s,
  (run match self_admin_client s with
       | Some _ => log_call (Admin AClose)
       | None => ret tt
       end in
   match self_consumer s with
   | Some _ => log_call (Consumer CClose)
   | None => ret tt
   end) s.

(** ** The command surface *)

Inductive Command : Type :=
  | CmdHealthCheck
  | CmdCheckLag
  | CmdFindStaleConsumers
  | CmdFindUnusedTopics
  | CmdDeleteGroup (group_name : string)
  | CmdDeleteTopic (topic_name : string).

(** The click command functions: each fetches the commander and calls one
    method. *)
Definition run_command (cmd : Command) : M unit :=
  match cmd with
  | CmdHealthCheck => health_check
  | CmdCheckLag => check_lag
  | CmdFindStaleConsumers => find_stale_consumers
  | CmdFindUnusedTopics => find_unused_topics
  | CmdDeleteGroup group_name => delete_consumer_group group_name
  | CmdDeleteTopic topic_name => delete_topic topic_name
  end.

(** [KafkaLens.__init__]: both clients start as [None]. *)
Definition init_state : State := mkState None None [] [] 0.

(** One process invocation: [cli] builds the commander, then the selected
    command runs. *)
Definition cli (cmd : Command) : outcome unit * State :=
  run_command cmd init_state.

End KafkaLens.

(** * The rest of the program

    The resolution of the bootstrap servers in detail
    ([_get_bootstrap_servers] and [_get_cloud_bootstrap_servers], which the
    class above sees through the field [bootstrap_servers] of the
    environment), and the two scripts that drive the class:
    [example_usage.py] and [test_connection.py]. *)

(** ** Bootstrap-server resolution *)

(** A configuration value that the program treats as text: [None] or a
    string. *)
Definition PyStr : Type := option string.

(** Python truthiness of a string and of such a value. *)
Definition str_truthy (s : string) : bool :=
  match s with
  | EmptyString => false
  | String _ _ => true
  end.

Definition truthy (v : PyStr) : bool :=
  match v with
  | Some s => str_truthy s
  | None => false
  end.

(** [a or b]. *)
Definition py_or (a b : PyStr) : PyStr := if truthy a then a else b.

(** [s.split(',')]. *)
Fixpoint split_comma (s : string) : list string :=
  match s with
  | EmptyString => [EmptyString]
  | String c s' =>
      if Ascii.eqb c "," then EmptyString :: split_comma s'
      else match split_comma s' with
           | w :: ws => String c w :: ws
           | [] => [String c EmptyString]
           end
  end.

(** The value under the key [bootstrap_servers]: a string or a list. *)
Inductive Servers : Type :=
  | ServersStr (s : string)
  | ServersList (l : list string).

(** The keys of the YAML file that the resolution reads; an absent key is
    [None], a key with the value [null] is [Some None]. *)
Record ServerConfig : Type := mkServerConfig {
  cfg_cluster_arn : option PyStr;
  cfg_msk_cluster_arn : option PyStr;
  cfg_aws_region : option PyStr;
  cfg_aws_profile : option PyStr;
  cfg_bootstrap_servers : option Servers
}.

(** [key in self.config] and [self.config.get(key)]. *)
Definition has_key {A} (v : option A) : bool :=
  match v with
  | Some _ => true
  | None => false
  end.

Definition get_or_none (v : option PyStr) : PyStr := default None v.

(** The answer of [get_bootstrap_brokers], a dictionary that may lack
    either key. *)
Record BrokersResponse : Type := mkBrokersResponse {
  BootstrapBrokerStringTls : option string;
  BootstrapBrokerString : option string
}.

(** [boto3]: the session (for a profile, or the default one), its client for
    a region and the lookup of a cluster; each of the three steps may raise,
    and they share one handler. *)
Definition Boto3 : Type :=
  option string → PyStr → PyStr → result BrokersResponse.

Definition _get_cloud_bootstrap_servers (cfg : ServerConfig) (boto3 : Boto3)
    : M (list string) :=
  try_except
    (let cluster_arn :=
       py_or (get_or_none (cfg_cluster_arn cfg))
             (get_or_none (cfg_msk_cluster_arn cfg)) in
     if negb (truthy cluster_arn) then
       raise "cluster_arn or msk_cluster_arn must be specified for cloud clusters"
     else
       let region := default (Some "us-west-2") (cfg_aws_region cfg) in
       let profile := get_or_none (cfg_aws_profile cfg) in
       let session := if truthy profile then profile else None in
       let* response := lift (boto3 session region cluster_arn) in
       let brokers := default "" (BootstrapBrokerStringTls response) in
       let brokers :=
         if negb (str_truthy brokers)
         then default "" (BootstrapBrokerString response)
         else brokers in
       ret (if str_truthy brokers then split_comma brokers else []))
    (λ e, run echo (CloudConnectError e) in sys_exit 1).

(** [_get_bootstrap_servers], from the configuration itself. *)
Definition get_bootstrap_servers_from (cfg : ServerConfig) (boto3 : Boto3)
    : M (list string) :=
  if has_key (cfg_cluster_arn cfg) || has_key (cfg_msk_cluster_arn cfg) then
    _get_cloud_bootstrap_servers cfg boto3
  else
    let servers :=
      default (ServersStr "localhost:9092") (cfg_bootstrap_servers cfg) in
    ret match servers with
        | ServersStr s => split_comma s
        | ServersList l => l
        end.

(** ** The scripts *)

(** [try: m finally: f]: [f] runs however [m] ends, and the statement ends
    as [m] did unless [f] itself raises or exits. *)
Definition try_finally {A} (m : M A) (f : M unit) : M A := λ s,
  match f (m s).2 with
  | (Ret _, s') => ((m s).1, s')
  | (Exc e, s') => (Exc e, s')
  | (SysExit c, s') => (SysExit c, s')
  end.

(** [print]: the console of the state records the lines of [click.echo]
    only, so that a [print] leaves the state as it is. *)
Definition py_print (text : string) : M unit := ret tt.

(** [example_usage.main], from the constructed [KafkaLens] object on. *)
Definition example_main (env : Env) : M unit :=
  try_finally
    (try_except
       (run py_print "Running Kafka Lens examples..." in
        run py_print "1. Running health check..." in
        run health_check env in
        run py_print "" in
        run py_print "2. Checking consumer group lag..." in
        run check_lag env in
        run py_print "" in
        run py_print "3. Finding stale consumer groups..." in
        run find_stale_consumers env in
        run py_print "" in
        run py_print "4. Finding unused topics..." in
        run find_unused_topics env in
        run py_print "" in
        py_print "All examples completed successfully!")
       (λ e, py_print ("Error running examples: " +:+ e)))
    (close).

(** [test_connection.test_connection], from the constructed object on. *)
Definition test_connection (env : Env) : M bool :=
  try_except
    (run py_print "Testing Kafka connection..." in
     let* admin_client := _get_admin_client env in
     run py_print "Admin client connection successful" in
     let* metadata :=
       admin_call ADescribeCluster (describe_cluster admin_client) in
     run py_print ("Cluster metadata retrieved: "
                   +:+ pretty (len (brokers metadata))
                   +:+ " brokers found") in
     let* consumer := _get_consumer env in
     run py_print "Consumer connection successful" in
     run close in
     run py_print "All connections successful! Your Kafka Lens is ready to use." in
     ret true)
    (λ e,
       run py_print ("Connection failed: " +:+ e) in
       run py_print "Troubleshooting tips:" in
       run py_print "1. Check your config.yml file" in
       run py_print "2. Verify your Kafka cluster is running" in
       run py_print "3. Check network connectivity" in
       run py_print "4. Verify authentication credentials" in
       ret false).

(** The script: [success = test_connection()], then
    [sys.exit(0 if success else 1)]. *)
Definition test_connection_script (env : Env) : outcome unit * State :=
  (let* success := test_connection env in
   sys_exit (if success : bool then 0 else 1)) init_state.

(** * Specification-side definitions

    The definitions below do not belong to the program: they are the
    quantities its specification speaks about, and summaries of what a loop
    body does, used to state and prove the properties. *)

(** The state after one more logged call, and after one more echoed line. *)
Definition logged (c : Call) (s : State) : State := (log_call c s).2.
Definition echoed (l : Line) (s : State) : State := (echo l s).2.

(** The state after one more reading of the clock. *)
Definition ticked (s : State) : State :=
  mkState (self_admin_client s) (self_consumer s) (console s) (calls s)
          (S (clock_reads s)).

(** What one committed partition adds to the total: nothing when the
    end-offset answer has no entry for it. *)
Definition present_lag (latest_offsets : gmap TopicPartition Z)
    (item : TopicPartition * OffsetAndMetadata) : Z :=
  match latest_offsets !! item.1 with
  | Some latest_offset => Z.max 0 (latest_offset - offset item.2)
  | None => 0
  end.

(** The total that the accumulation loop reaches over all committed
    partitions. *)
Definition partial_lag
    (committed_offsets : gmap TopicPartition OffsetAndMetadata)
    (latest_offsets : gmap TopicPartition Z) : Z :=
  foldr (λ item acc, present_lag latest_offsets item + acc) 0
        (map_to_list committed_offsets).

(** The lag of a group in the words of the specification: the sum, over the
    partitions the group has committed to, of max(0, end-offset − committed
    offset). *)
Definition spec_total_lag
    (committed_offsets : gmap TopicPartition OffsetAndMetadata)
    (end_offset : TopicPartition → Z) : Z :=
  foldr (λ item acc, Z.max 0 (end_offset item.1 - offset item.2) + acc) 0
        (map_to_list committed_offsets).

(** What the body of the group loop does, as a function of the answers of
    the client: a lag to record, nothing to record, or an error. *)
Definition lag_of_group (admin : KafkaAdminClient) (g : string)
    : result (option Z) :=
  match list_consumer_group_offsets admin g with
  | Raise e => Raise e
  | Ok committed =>
      if dict_is_empty committed then Ok None
      else match get_topic_end_offsets admin (dict_keys committed) with
           | Raise e => Raise e
           | Ok latest => Ok (Some (partial_lag committed latest))
           end
  end.

Definition lag_step (admin : KafkaAdminClient) (gl : list (string * Z))
    (g : string) : list (string * Z) :=
  match lag_of_group admin g with
  | Ok (Some lag) => dict_set g lag gl
  | _ => gl
  end.

Definition lag_warning (admin : KafkaAdminClient) (g : string) : list Line :=
  match lag_of_group admin g with
  | Raise e => [LagWarning g e]
  | _ => []
  end.

(** The line printed for one entry of [group_lags]. *)
Definition lag_line (lag_threshold : Z) (item : string * Z) : Line :=
  if item.2 >? lag_threshold then LagHigh item.1 item.2
  else LagNormal item.1 item.2.

(** The line printed for one entry of [group_lags], the closing line of the
    report, and the whole report of [check_lag]. *)
Definition lag_summary (lag_threshold : Z) (gl : list (string * Z)) : Line :=
  match List.filter (λ item, item.2 >? lag_threshold) gl with
  | [] => LagAllNormal
  | high => LagHighSummary (length high)
  end.

Definition lag_report (lag_threshold : Z) (gl : list (string * Z))
    : list Line :=
  match gl with
  | [] => [LagNoGroups]
  | _ => [LagReportHeader] ++ (lag_line lag_threshold <$> gl)
         ++ [lag_summary lag_threshold gl]
  end.

(** A partition is under-replicated when its in-sync-replica set is smaller
    than its replica set. *)
Definition under_replicated (p : PartitionInfo) : bool :=
  (length (isr p) <? length (replicas p))%nat.

(** All partitions that an answer of [describe_topics] describes. *)
Definition described_partitions (topic_metadata : gmap string TopicInfo)
    : list PartitionInfo :=
  item ← map_to_list topic_metadata; (map_to_list (partitions item.2)).*2.

(** The under-replicated count in the words of the specification: the number
    of described partitions whose in-sync-replica set is smaller than their
    replica set. *)
Definition spec_urp_count (topic_metadata : gmap string TopicInfo) : Z :=
  len (List.filter under_replicated (described_partitions topic_metadata)).

(** The lines that a complete [health_check] prints. *)
Definition health_report (metadata : ClusterMetadata) (urp_count : Z)
    : list Line :=
  [HealthChecking; HealthReportHeader;
   BrokersFound (len (nodes metadata)) (len (brokers metadata));
   ControllerId (controller metadata);
   if urp_count =? 0 then UrpOk urp_count else UrpWarning urp_count;
   if (len (nodes metadata) =? len (brokers metadata)) && (urp_count =? 0)
   then ClusterHealthy else ClusterHasIssues].










(** [issues P m]: whatever the state, the calls that [m] adds to the log all
    satisfy [P]. *)
Definition issues {A} (P : Call → Prop) (m : M A) : Prop :=
  ∀ s, ∃ new, calls (m s).2 = calls s ++ new ∧ Forall P new.


(** A call that releases a connection. *)
Definition is_close (c : Call) : Prop :=
  c = Admin AClose ∨ c = Consumer CClose.

(** The partitions with messages: those with a positive end-offset. *)
Definition non_empty_partitions (offsets : gmap Z Z) (ps : list Z) : list Z :=
  List.filter (λ p, match offsets !! p with
                    | Some end_offset => end_offset >? 0
                    | None => false
                    end) ps.

(** The calls that the partition loop of [find_unused_topics] makes when no
    call fails: for every partition with messages, in order, a seek to the
    end, a seek to end-offset − 1 and one poll. *)
Definition inspection_calls (offsets : gmap Z Z) (ps : list Z) : list Call :=
  p ← non_empty_partitions offsets ps;
  [Consumer (CSeekToEnd p);
   Consumer (CSeek p (default 0 (offsets !! p) - 1));
   Consumer (CPoll 1000)].


(** [polled consumer before after ts]: between the two states of the log, a
    poll was answered with a batch whose first record has timestamp [ts]. *)
Definition polled (consumer : KafkaConsumer) (before after : list Call)
    (ts : Z) : Prop :=
  ∃ h tp m msgs batches,
    before `prefix_of` h ∧ h ++ [Consumer (CPoll 1000)] `prefix_of` after
    ∧ poll consumer h 1000 = Ok batches
    ∧ batches !! tp = Some (m :: msgs)
    ∧ timestamp m = ts.



(** [no_exit m]: [m] never leaves through [sys.exit]. *)
Definition no_exit {A} (m : M A) : Prop :=
  ∀ s c, (m s).1 ≠ SysExit c.

(** [returns m]: [m] always returns normally. *)
Definition returns {A} (m : M A) : Prop :=
  ∀ s, ∃ a, (m s).1 = Ret a.

(** [quiet m]: [m] prints nothing and does not read the clock. *)
Definition quiet {A} (m : M A) : Prop :=
  ∀ s, console (m s).2 = console s ∧ clock_reads (m s).2 = clock_reads s.

Definition is_unused_warning (l : Line) : Prop :=
  ∃ topic e, l = UnusedWarning topic e.

(** The calls allowed in the partition loop: seeks to the end, seeks to the
    position just before the end-offset of the partition, and polls. *)
Definition inspection_call (offsets : gmap Z Z) (c : Call) : Prop :=
  match c with
  | Consumer (CSeekToEnd _) | Consumer (CPoll _) => True
  | Consumer (CSeek p off) => offsets !! p = Some (off + 1)
  | _ => False
  end.

(** How many times each client constructor has been called. *)
Definition is_new_admin (c : Call) : bool :=
  match c with
  | NewAdmin _ => true
  | _ => false
  end.

Definition is_new_consumer (c : Call) : bool :=
  match c with
  | NewConsumer _ => true
  | _ => false
  end.

Definition admin_created (s : State) : nat :=
  length (List.filter is_new_admin (calls s)).

Definition consumer_created (s : State) : nat :=
  length (List.filter is_new_consumer (calls s)).

(** Each client has been constructed at most once. *)
Definition created_once (s : State) : Prop :=
  (admin_created s ≤ 1)%nat ∧ (consumer_created s ≤ 1)%nat.

(** The invariant behind it: a client has been constructed only if the
    corresponding field of the object is set. *)
Definition lazily_created (s : State) : Prop :=
  (admin_created s ≤ match self_admin_client s with
                     | Some _ => 1
                     | None => 0
                     end)%nat
  ∧ (consumer_created s ≤ match self_consumer s with
                          | Some _ => 1
                          | None => 0
                          end)%nat.

(** [preserves I J m]: from a state that satisfies [I], [m] ends in a state
    that satisfies [I], or exits in a state that satisfies [J]. *)
Definition preserves {A} (I J : State → Prop) (m : M A) : Prop :=
  ∀ s, I s →
       match (m s).1 with
       | SysExit _ => J (m s).2
       | _ => I (m s).2
       end.


(** * Definitions for the further properties *)

(** The lag of a group can be computed: its committed offsets are readable
    and not empty, and the end offsets of its partitions are readable. *)
Definition lag_computable (admin : KafkaAdminClient) (g : string) : Prop :=
  ∃ committed latest,
    list_consumer_group_offsets admin g = Ok committed
    ∧ committed ≠ ∅
    ∧ get_topic_end_offsets admin (dict_keys committed) = Ok latest.


(** The three lines that announce a failed connection. *)
Definition is_connect_error (l : Line) : Prop :=
  ∃ e, l = CloudConnectError e ∨ l = AdminConnectError e
       ∨ l = ConsumerCreateError e.

(** [m] returns normally, or prints a connection error as its last line and
    exits with status 1. *)
Definition returns_or_exits_1 {A} (m : M A) (s : State) : Prop :=
  (∃ a, (m s).1 = Ret a)
  ∨ ((m s).1 = SysExit 1
     ∧ ∃ l, last (console (m s).2) = Some l ∧ is_connect_error l).

(** The topics a call asks the consumer about. *)
Definition asks_about (topics : list string) (c : Call) : Prop :=
  ∀ t, c = Consumer (CPartitionsForTopic t) → t ∈ topics.

(** [','.join(l)]. *)
Fixpoint join_comma (l : list string) : string :=
  match l with
  | [] => EmptyString
  | w :: ws =>
      match ws with
      | [] => w
      | _ :: _ => w +:+ String "," (join_comma ws)
      end
  end.

(** A server entry holds no comma. *)
Fixpoint comma_free (w : string) : bool :=
  match w with
  | EmptyString => true
  | String c w' => negb (Ascii.eqb c ",") && comma_free w'
  end.

(** The message of the [ValueError] that the managed-cluster lookup raises
    when the cluster identifier is missing or empty. *)
Definition arn_missing : exn :=
  "cluster_arn or msk_cluster_arn must be specified for cloud clusters".

(** A configuration with another value under [bootstrap_servers]. *)
Definition with_servers (cfg : ServerConfig) (servers : option Servers)
    : ServerConfig :=
  mkServerConfig (cfg_cluster_arn cfg) (cfg_msk_cluster_arn cfg)
                 (cfg_aws_region cfg) (cfg_aws_profile cfg) servers.

(** * Example environments *)

Definition config_defaults : Config :=
  mkConfig None None None None None None None None None None.

Definition config_lag_threshold (t : Z) : Config :=
  mkConfig None None None None None None None (Some t) None None.

(** A consumer that knows no topic. *)
Definition idle_consumer : KafkaConsumer :=
  mkKafkaConsumer (λ _ _, Ok None) (λ _ _, Ok ∅) (λ _ _, Ok tt)
                  (λ _ _ _, Ok tt) (λ _ _, Ok ∅).

(** The cluster of the specification's example: group [g1] has committed
    offset 100 on partition 0 of [topicA], whose end-offset is 350.  A second
    group, [g0], has never committed. *)
Definition g1_committed : gmap TopicPartition OffsetAndMetadata :=
  {[ ("topicA", 0) := mkOffsetAndMetadata 100 0 ]}.

Definition g1_latest : gmap TopicPartition Z := {[ ("topicA", 0) := 350 ]}.

Definition g1_admin : KafkaAdminClient :=
  mkKafkaAdminClient
    (Ok (mkClusterMetadata [1] [1] 1))
    (Ok ["topicA"])
    (λ _, Ok ∅)
    (Ok ["g0"; "g1"])
    (λ g, if decide (g = "g1") then Ok g1_committed else Ok ∅)
    (λ _, Ok g1_latest)
    (λ _, Ok tt)
    (λ _, Ok tt).

Definition g1_env (threshold : Z) : Env :=
  mkEnv (config_lag_threshold threshold) (Ok ["localhost:9092"])
        (λ _, Ok g1_admin) (λ _, Ok idle_consumer) (λ _, 0) "".

(** A group with two committed partitions, one of which is missing from the
    end-offset answer (the partition vanished between the two reads). *)
Definition g2_committed : gmap TopicPartition OffsetAndMetadata :=
  {[ ("topicA", 0) := mkOffsetAndMetadata 100 0;
     ("topicB", 0) := mkOffsetAndMetadata 5 0 ]}.

Definition g2_admin : KafkaAdminClient :=
  mkKafkaAdminClient
    (Ok (mkClusterMetadata [1] [1] 1))
    (Ok ["topicA"])
    (λ _, Ok ∅)
    (Ok ["g2"])
    (λ _, Ok g2_committed)
    (λ _, Ok g1_latest)
    (λ _, Ok tt)
    (λ _, Ok tt).

Definition g2_env : Env :=
  mkEnv config_defaults (Ok ["localhost:9092"])
        (λ _, Ok g2_admin) (λ _, Ok idle_consumer) (λ _, 0) "".

(** A cluster of three brokers, all online.  Topic [orders] has two
    partitions, one of them with a replica out of sync; the internal topic
    [__consumer_offsets] has an under-replicated partition too. *)
Definition health_topics : gmap string TopicInfo :=
  {[ "orders" :=
       mkTopicInfo {[ 0 := mkPartitionInfo [1; 2; 3] [1; 2; 3];
                      1 := mkPartitionInfo [1; 2; 3] [1; 2] ]};
     "__consumer_offsets" :=
       mkTopicInfo {[ 0 := mkPartitionInfo [1; 2; 3] [1] ]} ]}.

(** [describe_topics] answers for the topics it is asked about. *)
Definition health_describe (names : list string) : gmap string TopicInfo :=
  filter (λ kv, kv.1 ∈ names) health_topics.

Definition health_admin : KafkaAdminClient :=
  mkKafkaAdminClient
    (Ok (mkClusterMetadata [1; 2; 3] [1; 2; 3] 1))
    (Ok ["orders"; "__consumer_offsets"])
    (λ names, Ok (health_describe names))
    (Ok [])
    (λ _, Ok ∅)
    (λ _, Ok ∅)
    (λ _, Ok tt)
    (λ _, Ok tt).

Definition health_env : Env :=
  mkEnv config_defaults (Ok ["localhost:9092"])
        (λ _, Ok health_admin) (λ _, Ok idle_consumer) (λ _, 0) "".

(** Four groups seen one hundred days after the epoch, with the default
    threshold of thirty days: [idle] has never committed; the offsets of
    [broken] cannot be read; [old] has commits ten and forty days after the
    epoch; [fresh] has a commit eighty days after the epoch. *)
Definition day_ms : Z := 86400000.

Definition old_offsets : gmap TopicPartition OffsetAndMetadata :=
  {[ ("topicA", 0) := mkOffsetAndMetadata 7 (10 * day_ms);
     ("topicA", 1) := mkOffsetAndMetadata 9 (40 * day_ms) ]}.

Definition fresh_offsets : gmap TopicPartition OffsetAndMetadata :=
  {[ ("topicA", 0) := mkOffsetAndMetadata 7 (80 * day_ms) ]}.

Definition stale_admin : KafkaAdminClient :=
  mkKafkaAdminClient
    (Ok (mkClusterMetadata [1] [1] 1))
    (Ok ["topicA"])
    (λ _, Ok ∅)
    (Ok ["idle"; "broken"; "old"; "fresh"])
    (λ g, if decide (g = "old") then Ok old_offsets
          else if decide (g = "fresh") then Ok fresh_offsets
          else if decide (g = "broken") then Raise "group coordinator gone"
          else Ok ∅)
    (λ tps, if decide (tps = []) then Raise "no partitions" else Ok ∅)
    (λ _, Ok tt)
    (λ _, Ok tt).

Definition stale_env : Env :=
  mkEnv config_defaults (Ok ["localhost:9092"])
        (λ _, Ok stale_admin) (λ _, Ok idle_consumer)
        (λ _, 100 * us_per_day) "".

(** The cluster of [g1_admin] with a given text typed at the prompt. *)
Definition delete_env (typed : string) : Env :=
  mkEnv config_defaults (Ok ["localhost:9092"])
        (λ _, Ok g1_admin) (λ _, Ok idle_consumer) (λ _, 0) typed.

(** The topics of the specification's example, seen two hundred days after
    the epoch: [orders] has partitions 0 and 1 with end-offsets 0 and 50, and
    the last message of partition 1 was written eighty days after the epoch,
    that is 120 days ago; [empty] has one partition and no message. *)
Definition orders_offsets : gmap Z Z := {[ 0 := 0; 1 := 50 ]}.

Definition orders_consumer : KafkaConsumer :=
  mkKafkaConsumer
    (λ _ topic,
       if decide (topic = "orders") then Ok (Some [0; 1])
       else if decide (topic = "empty") then Ok (Some [0])
       else Ok None)
    (λ h _,
       match last h with
       | Some (Consumer (CPartitionsForTopic topic)) =>
           if decide (topic = "orders") then Ok orders_offsets
           else Ok {[ 0 := 0 ]}
       | _ => Raise "no topic selected"
       end)
    (λ _ _, Ok tt)
    (λ _ _ _, Ok tt)
    (λ h _,
       match last h with
       | Some (Consumer (CSeek 1 49)) =>
           Ok {[ ("orders", 1) := [mkConsumerRecord (80 * day_ms)] ]}
       | _ => Ok ∅
       end).

Definition orders_admin : KafkaAdminClient :=
  mkKafkaAdminClient
    (Ok (mkClusterMetadata [1] [1] 1))
    (Ok ["orders"; "empty"; "__consumer_offsets"])
    (λ _, Ok ∅)
    (Ok [])
    (λ _, Ok ∅)
    (λ _, Ok ∅)
    (λ _, Ok tt)
    (λ _, Ok tt).

Definition orders_env : Env :=
  mkEnv config_defaults (Ok ["localhost:9092"])
        (λ _, Ok orders_admin) (λ _, Ok orders_consumer)
        (λ _, 200 * us_per_day) "".

(** A cluster whose metadata cannot be read. *)
Definition unreadable_admin : KafkaAdminClient :=
  mkKafkaAdminClient
    (Raise "metadata request timed out")
    (Raise "metadata request timed out")
    (λ _, Raise "metadata request timed out")
    (Raise "coordinator not available")
    (λ _, Raise "coordinator not available")
    (λ _, Raise "metadata request timed out")
    (λ _, Raise "not authorized")
    (λ _, Raise "not authorized").

Definition unreadable_env (typed : string) : Env :=
  mkEnv config_defaults (Ok ["localhost:9092"])
        (λ _, Ok unreadable_admin) (λ _, Ok idle_consumer) (λ _, 0) typed.

(** Two groups, none with a computable lag: [g0] has never committed and
    the offsets of [broken] cannot be read. *)
Definition uncommitted_admin : KafkaAdminClient :=
  mkKafkaAdminClient
    (Ok (mkClusterMetadata [1] [1] 1))
    (Ok [])
    (λ _, Ok ∅)
    (Ok ["g0"; "broken"])
    (λ g, if decide (g = "broken") then Raise "group coordinator gone"
          else Ok ∅)
    (λ _, Ok ∅)
    (λ _, Ok tt)
    (λ _, Ok tt).

Definition uncommitted_env : Env :=
  mkEnv config_defaults (Ok ["localhost:9092"])
        (λ _, Ok uncommitted_admin) (λ _, Ok idle_consumer) (λ _, 0) "".

(** A configuration file with two static servers and nothing else. *)
Definition two_servers_config : ServerConfig :=
  mkServerConfig None None None None (Some (ServersStr "a:9092,b:9092")).

(** A configuration file with an empty cluster identifier next to static
    servers. *)
Definition empty_arn_config : ServerConfig :=
  mkServerConfig (Some (Some "")) None None None
                 (Some (ServersStr "a:9092,b:9092")).

(** A lookup service that is never reached, and one that knows a cluster
    with TLS and plaintext listeners. *)
Definition boto3_down : Boto3 := λ _ _ _, Raise "could not connect".

Definition boto3_up : Boto3 := λ _ _ _,
  Ok (mkBrokersResponse (Some "b-1:9094,b-2:9094") (Some "b-1:9092,b-2:9092")).

Definition msk_config : ServerConfig :=
  mkServerConfig None (Some (Some "arn:aws:kafka:eu-west-1:1:cluster/c"))
                 None None (Some (ServersStr "a:9092,b:9092")).

(** * Properties *)

(** ** Helpers *)

Lemma dict_is_empty_true {K} `{Countable K} {V} (d : gmap K V) :
  dict_is_empty d = true ↔ d = ∅.
Proof.
  unfold dict_is_empty. rewrite bool_decide_eq_true. apply map_size_empty_iff.
Qed.

Lemma dict_is_empty_false {K} `{Countable K} {V} (d : gmap K V) :
  dict_is_empty d = false ↔ d ≠ ∅.
Proof.
  rewrite <- dict_is_empty_true. destruct (dict_is_empty d); naive_solver.
Qed.

Lemma dict_get_set_eq k v d : dict_get k (dict_set k v d) = Some v.
Proof.
  induction d as [|[k' v'] d IH]; simpl.
  - by rewrite decide_True.
  - destruct (decide (k = k')) as [->|Hne]; simpl.
    + by rewrite decide_True.
    + by rewrite decide_False.
Qed.

Lemma dict_get_set_ne k k' v d :
  k ≠ k' → dict_get k' (dict_set k v d) = dict_get k' d.
Proof.
  intros Hne. induction d as [|[k1 v1] d IH]; simpl.
  - by rewrite decide_False.
  - destruct (decide (k = k1)) as [->|Hne1]; simpl.
    + by rewrite !decide_False.
    + destruct (decide (k' = k1)); done.
Qed.

Lemma dict_set_keys k v d :
  ∀ k', k' ∈ (dict_set k v d).*1 ↔ k' = k ∨ k' ∈ d.*1.
Proof.
  induction d as [|[k1 v1] d IH]; intros k'; simpl.
  - set_solver.
  - destruct (decide (k = k1)) as [->|Hne]; simpl.
    + set_solver.
    + rewrite !elem_of_cons, IH. naive_solver.
Qed.

Lemma dict_set_NoDup k v d : NoDup d.*1 → NoDup (dict_set k v d).*1.
Proof.
  induction d as [|[k1 v1] d IH]; simpl; intros Hnd.
  - apply NoDup_singleton.
  - apply NoDup_cons in Hnd as [Hnotin Hnd].
    destruct (decide (k = k1)) as [->|Hne]; simpl.
    + by apply NoDup_cons.
    + apply NoDup_cons. split; [|by apply IH].
      rewrite dict_set_keys. naive_solver.
Qed.

Lemma dict_get_Some_elem_of k v d : dict_get k d = Some v → (k, v) ∈ d.
Proof.
  induction d as [|[k1 v1] d IH]; simpl; [done|].
  destruct (decide (k = k1)) as [->|Hne].
  - intros [= ->]. left.
  - intros Hget. right. by apply IH.
Qed.

Lemma dict_get_Some_elem_of_inv k v d :
  (k, v) ∈ d → ∃ v', dict_get k d = Some v'.
Proof.
  induction d as [|[k1 v1] d IH]; simpl; intros Hin.
  - by apply elem_of_nil in Hin.
  - destruct (decide (k = k1)) as [->|Hne]; [by eexists|].
    apply elem_of_cons in Hin as [[= ? ?]|Hin]; [congruence|by apply IH].
Qed.

Lemma dict_elem_of_get k v d : NoDup d.*1 → (k, v) ∈ d → dict_get k d = Some v.
Proof.
  induction d as [|[k1 v1] d IH]; simpl; intros Hnd Hin.
  - by apply elem_of_nil in Hin.
  - apply NoDup_cons in Hnd as [Hnotin Hnd].
    apply elem_of_cons in Hin as [[= <- <-]|Hin].
    + by rewrite decide_True.
    + destruct (decide (k = k1)) as [->|Hne]; [|by apply IH].
      exfalso. apply Hnotin. apply list_elem_of_fmap. by exists (k1, v).
Qed.



Lemma lower_ascii_y (c : ascii) :
  lower_ascii c = "y"%char ↔ c = "y"%char ∨ c = "Y"%char.
Proof.
  destruct c as [[] [] [] [] [] [] [] []]; vm_compute;
    split; intros H; try discriminate H; try (destruct H as [H|H]; discriminate H);
    auto.
Qed.

(** [s.lower() == 'y'] holds for the two strings ["y"] and ["Y"] only. *)
Lemma lower_eq_y (s : string) : lower s = "y" ↔ s = "y" ∨ s = "Y".
Proof.
  destruct s as [|c [|c' s]]; simpl.
  - split; [discriminate|]. intros [H|H]; discriminate H.
  - split.
    + intros [= Hc]. apply lower_ascii_y in Hc as [->| ->]; auto.
    + intros [[= ->]|[= ->]]; reflexivity.
  - split; [discriminate|]. intros [H|H]; discriminate H.
Qed.

(** ** Running the monad *)

Lemma bind_run {A B} (m : M A) (k : A → M B) s a s' :
  m s = (Ret a, s') → bind m k s = k a s'.
Proof. intros H. unfold bind. by rewrite H. Qed.

Lemma bind_echo {B} (l : Line) (k : unit → M B) s :
  bind (echo l) k s = k tt (echoed l s).
Proof. done. Qed.

Lemma bind_log_call {B} (c : Call) (k : unit → M B) s :
  bind (log_call c) k s = k tt (logged c s).
Proof. done. Qed.

Lemma bind_admin_call_Ok {A B} c (r : result A) (k : A → M B) s a :
  r = Ok a → bind (admin_call c r) k s = k a (logged (Admin c) s).
Proof. intros ->. done. Qed.

Lemma bind_admin_call_Raise {A B} c (r : result A) (k : A → M B) s e :
  r = Raise e → bind (admin_call c r) k s = (Exc e, logged (Admin c) s).
Proof. intros ->. done. Qed.

Lemma bind_consumer_call_Ok {A B} c (r : list Call → result A)
    (k : A → M B) s a :
  r (calls s) = Ok a →
  bind (consumer_call c r) k s = k a (logged (Consumer c) s).
Proof. intros H. unfold bind, consumer_call, bind. simpl. by rewrite H. Qed.

Lemma bind_consumer_call_Raise {A B} c (r : list Call → result A)
    (k : A → M B) s e :
  r (calls s) = Raise e →
  bind (consumer_call c r) k s = (Exc e, logged (Consumer c) s).
Proof. intros H. unfold bind, consumer_call, bind. simpl. by rewrite H. Qed.

Lemma echo_if (b : bool) (l1 l2 : Line) :
  (if b then echo l1 else echo l2) = echo (if b then l1 else l2).
Proof. by destruct b. Qed.

Lemma bind_ret {A B} (a : A) (k : A → M B) s : bind (ret a) k s = k a s.
Proof. done. Qed.

Lemma bind_now {B} env (k : Z → M B) s :
  bind (now env) k s = k (clock env (clock_reads s)) (ticked s).
Proof. done. Qed.

Lemma clock_reads_echoed l s : clock_reads (echoed l s) = clock_reads s.
Proof. done. Qed.

Lemma clock_reads_logged c s : clock_reads (logged c s) = clock_reads s.
Proof. done. Qed.

Lemma clock_reads_ticked s : clock_reads (ticked s) = S (clock_reads s).
Proof. done. Qed.

Lemma console_ticked s : console (ticked s) = console s.
Proof. done. Qed.

Lemma calls_ticked s : calls (ticked s) = calls s.
Proof. done. Qed.

Lemma console_echoed l s : console (echoed l s) = console s ++ [l].
Proof. done. Qed.

Lemma console_logged c s : console (logged c s) = console s.
Proof. done. Qed.

Lemma calls_echoed l s : calls (echoed l s) = calls s.
Proof. done. Qed.

Lemma calls_logged c s : calls (logged c s) = calls s ++ [c].
Proof. done. Qed.

(** ** Consumer group lag *)

Lemma sum_partition_lags_entries committed latest
    (items : list (TopicPartition * OffsetAndMetadata)) (acc : Z) :
  (∀ item, item ∈ items → committed !! item.1 = Some item.2) →
  sum_partition_lags committed latest items.*1 acc
  = Ok (acc + foldr (λ item a, present_lag latest item + a) 0 items).
Proof.
  revert acc. induction items as [|[tp om] items IH]; intros acc Hitems; simpl.
  - f_equal. lia.
  - assert (committed !! tp = Some om) as Hc by (apply (Hitems (tp, om)); left).
    unfold present_lag at 1. simpl. rewrite Hc.
    destruct (latest !! tp) as [e|].
    + rewrite IH by (intros; apply Hitems; by right). f_equal. lia.
    + rewrite IH by (intros; apply Hitems; by right). f_equal.
Qed.

Lemma sum_partition_lags_keys committed latest :
  sum_partition_lags committed latest (dict_keys committed) 0
  = Ok (partial_lag committed latest).
Proof.
  unfold dict_keys, partial_lag.
  rewrite sum_partition_lags_entries; [done|].
  intros [tp om] Hin. by apply elem_of_map_to_list in Hin.
Qed.

Lemma foldr_lag_nonneg {A} (f : A → Z) (l : list A) :
  (∀ x, 0 ≤ f x) → 0 ≤ foldr (λ item acc, f item + acc) 0 l.
Proof.
  intros Hf. induction l as [|x l IH]; simpl; [lia|]. specialize (Hf x). lia.
Qed.

Lemma partial_lag_nonneg committed latest : 0 ≤ partial_lag committed latest.
Proof.
  apply foldr_lag_nonneg. intros item. unfold present_lag.
  destruct (latest !! item.1); lia.
Qed.

Lemma partial_lag_covered committed latest (end_offset : TopicPartition → Z) :
  (∀ tp, is_Some (committed !! tp) → latest !! tp = Some (end_offset tp)) →
  partial_lag committed latest = spec_total_lag committed end_offset.
Proof.
  intros Hcov. unfold partial_lag, spec_total_lag.
  assert (∀ item, item ∈ map_to_list committed →
                  latest !! item.1 = Some (end_offset item.1)) as Hall.
  { intros [tp om] Hin. apply elem_of_map_to_list in Hin.
    apply Hcov. by exists om. }
  induction (map_to_list committed) as [|item l IH]; simpl; [done|].
  unfold present_lag at 1. rewrite (Hall item) by left.
  rewrite IH by (intros; apply Hall; by right). done.
Qed.

Lemma check_lag_group_run admin gl g s :
  ∃ s', check_lag_group admin gl g s = (Ret (lag_step admin gl g), s')
        ∧ console s' = console s ++ lag_warning admin g.
Proof.
  unfold check_lag_group, check_lag_group_try, try_except, bind, admin_call,
    lag_step, lag_warning, lag_of_group.
  simpl. destruct (list_consumer_group_offsets admin g) as [committed|e]; simpl.
  - destruct (dict_is_empty committed); simpl.
    + eexists. split; [done|]. simpl. by rewrite app_nil_r.
    + destruct (get_topic_end_offsets admin (dict_keys committed))
        as [latest|e]; simpl.
      * rewrite sum_partition_lags_keys. simpl.
        eexists. split; [done|]. simpl. by rewrite app_nil_r.
      * eexists. split; [done|]. done.
  - eexists. split; [done|]. done.
Qed.

Lemma check_lag_groups_run admin groups gl s :
  ∃ s', check_lag_groups admin groups gl s
        = (Ret (foldl (lag_step admin) gl groups), s')
        ∧ console s' = console s ++ mjoin (lag_warning admin <$> groups).
Proof.
  revert gl s. induction groups as [|g groups IH]; intros gl s; simpl.
  - eexists. split; [done|]. by rewrite app_nil_r.
  - unfold bind.
    destruct (check_lag_group_run admin gl g s) as (s1 & -> & Hc1).
    destruct (IH (lag_step admin gl g) s1) as (s2 & -> & Hc2).
    eexists. split; [done|]. by rewrite Hc2, Hc1, app_assoc.
Qed.

Lemma lag_step_NoDup admin gl g : NoDup gl.*1 → NoDup (lag_step admin gl g).*1.
Proof.
  unfold lag_step. destruct (lag_of_group admin g) as [[lag|]|e]; [|done..].
  apply dict_set_NoDup.
Qed.

Lemma lag_steps_NoDup admin groups gl :
  NoDup gl.*1 → NoDup (foldl (lag_step admin) gl groups).*1.
Proof.
  revert gl. induction groups as [|g groups IH]; intros gl Hnd; simpl; [done|].
  by apply IH, lag_step_NoDup.
Qed.

(** The entry of a group in the final dictionary is its own lag: the steps
    of the other groups do not touch it. *)
Lemma lag_steps_get admin groups gl g :
  dict_get g (foldl (lag_step admin) gl groups)
  = match lag_of_group admin g with
    | Ok (Some lag) => if decide (g ∈ groups) then Some lag else dict_get g gl
    | _ => dict_get g gl
    end.
Proof.
  revert gl. induction groups as [|g' groups IH]; intros gl; simpl.
  - destruct (lag_of_group admin g) as [[lag|]|e]; done.
  - rewrite IH. unfold lag_step.
    destruct (decide (g' = g)) as [->|Hne].
    + destruct (lag_of_group admin g) as [[lag|]|e]; [|done..].
      rewrite dict_get_set_eq.
      rewrite (decide_True (P := g ∈ g :: groups)) by apply list_elem_of_here.
      by destruct (decide (g ∈ groups)).
    + assert (dict_get g (match lag_of_group admin g' with
                          | Ok (Some lag) => dict_set g' lag gl
                          | _ => gl
                          end) = dict_get g gl) as Hother.
      { destruct (lag_of_group admin g') as [[lag'|]|e']; [|done..].
        by apply dict_get_set_ne. }
      rewrite Hother.
      destruct (lag_of_group admin g) as [[lag|]|e]; [|done..].
      destruct (decide (g ∈ groups)) as [Hin|Hnin].
      * by rewrite decide_True by (by apply list_elem_of_further).
      * rewrite decide_False; [done|].
        intros [?|?]%elem_of_cons; congruence.
Qed.

Lemma report_lags_run lag_threshold items high s :
  ∃ s', report_lags lag_threshold items high s
        = (Ret (high ++ List.filter (λ item, item.2 >? lag_threshold) items),
           s')
        ∧ console s' = console s ++ (lag_line lag_threshold <$> items).
Proof.
  revert high s. induction items as [|[g lag] items IH]; intros high s.
  - simpl. eexists. split; [by rewrite app_nil_r|]. by rewrite app_nil_r.
  - destruct (lag >? lag_threshold) eqn:Hcmp.
    + destruct (IH (high ++ [(g, lag)]) (echoed (LagHigh g lag) s))
        as (s' & Hrun & Hc).
      exists s'. split.
      * simpl. rewrite ?Hcmp. unfold bind. simpl.
        unfold echoed in Hrun. simpl in Hrun. rewrite Hrun.
        by rewrite <- app_assoc.
      * rewrite Hc, fmap_cons. unfold lag_line at 2. simpl. rewrite ?Hcmp.
        unfold echoed. simpl. by rewrite <- app_assoc.
    + destruct (IH high (echoed (LagNormal g lag) s)) as (s' & Hrun & Hc).
      exists s'. split.
      * simpl. rewrite ?Hcmp. unfold bind. simpl.
        unfold echoed in Hrun. simpl in Hrun. by rewrite Hrun.
      * rewrite Hc, fmap_cons. unfold lag_line at 2. simpl. rewrite ?Hcmp.
        unfold echoed. simpl. by rewrite <- app_assoc.
Qed.

(** The report of [check_lag], given the client and the list of groups. *)
Lemma get_admin_client_Ret env s admin s1 :
  _get_admin_client env s = (Ret admin, s1) →
  console s1 = console s ∧ self_admin_client s1 = Some admin
  ∧ self_consumer s1 = self_consumer s ∧ clock_reads s1 = clock_reads s
  ∧ ∃ pre, calls s1 = calls s ++ pre
           ∧ (pre = [] ∨ ∃ cfg, pre = [NewAdmin cfg]).
Proof.
  unfold _get_admin_client, _get_bootstrap_servers.
  destruct (self_admin_client s) as [c|] eqn:Hc.
  - intros [= <- <-]. split_and!; auto. exists []. by rewrite app_nil_r; auto.
  - unfold bind. destruct (bootstrap_servers env) as [servers|e]; simpl.
    + destruct (new_admin_client env _) as [c|e]; simpl; [|discriminate].
      intros [= <- <-]. simpl. split_and!; eauto.
    + discriminate.
Qed.

Lemma get_admin_client_echoed env l s admin s1 :
  _get_admin_client env s = (Ret admin, s1) →
  _get_admin_client env (echoed l s) = (Ret admin, echoed l s1).
Proof.
  unfold _get_admin_client, _get_bootstrap_servers. simpl.
  destruct (self_admin_client s) as [c|] eqn:Hc.
  - intros [= <- <-]. done.
  - unfold bind. destruct (bootstrap_servers env) as [servers|e]; simpl.
    + destruct (new_admin_client env _) as [c|e]; simpl; [|discriminate].
      intros [= <- <-]. done.
    + discriminate.
Qed.

Lemma lag_display_run lag_threshold (gl : list (string * Z)) s :
  ∃ s',
    match gl with
    | [] => echo LagNoGroups
    | _ =>
        run echo LagReportHeader in
        let* high_lag_groups := report_lags lag_threshold gl [] in
        match high_lag_groups with
        | [] => echo LagAllNormal
        | _ => echo (LagHighSummary (length high_lag_groups))
        end
    end s = (Ret tt, s')
    ∧ console s' = console s ++ lag_report lag_threshold gl.
Proof.
  destruct gl as [|item gl].
  - eexists. split; [done|]. done.
  - cbv beta iota. unfold bind at 1.
    change (echo LagReportHeader s) with (Ret tt, echoed LagReportHeader s).
    cbv beta iota. unfold bind at 1.
    destruct (report_lags_run lag_threshold (item :: gl) []
                (echoed LagReportHeader s)) as (s3 & -> & Hc3).
    unfold lag_report, lag_summary. rewrite app_nil_l.
    destruct (List.filter _ (item :: gl)) as [|h high].
    + eexists. split; [done|]. cbn [echo snd console]. rewrite Hc3.
      unfold echoed. cbn [echo snd console]. by rewrite <- !app_assoc.
    + eexists. split; [done|]. cbn [echo snd console]. rewrite Hc3.
      unfold echoed. cbn [echo snd console]. by rewrite <- !app_assoc.
Qed.

Lemma check_lag_run env s admin s1 groups :
  _get_admin_client env s = (Ret admin, s1) →
  list_consumer_groups admin = Ok groups →
  ∃ s', check_lag env s = (Ret tt, s')
        ∧ console s' = console s ++ [LagChecking]
            ++ mjoin (lag_warning admin <$> groups)
            ++ lag_report (config_get env lag_threshold 1000)
                          (foldl (lag_step admin) [] groups).
Proof.
  intros Hadmin Hgroups. unfold check_lag, bind at 1.
  change (echo LagChecking s) with (Ret tt, echoed LagChecking s).
  cbv beta iota. unfold bind at 1.
  rewrite (get_admin_client_echoed _ _ _ _ _ Hadmin).
  apply get_admin_client_Ret in Hadmin as (Hc1 & _).
  unfold try_except, bind at 1, admin_call, bind at 1.
  change (log_call (Admin AListConsumerGroups) (echoed LagChecking s1))
    with (Ret tt, logged (Admin AListConsumerGroups) (echoed LagChecking s1)).
  cbv beta iota. rewrite Hgroups. unfold lift, ret. unfold bind at 1.
  match goal with
  | |- context [check_lag_groups admin groups [] ?s0] =>
      destruct (check_lag_groups_run admin groups [] s0) as (s2 & -> & Hc2)
  end.
  destruct (lag_display_run (config_get env lag_threshold 1000)
              (foldl (lag_step admin) [] groups) s2) as (s3 & -> & Hc3).
  eexists. split; [done|]. rewrite Hc3, Hc2.
  unfold logged, echoed. cbn [log_call echo snd console]. rewrite Hc1.
  by rewrite <- !app_assoc.
Qed.

Lemma elem_of_lag_warnings admin groups l :
  l ∈ mjoin (lag_warning admin <$> groups) ↔
  ∃ g e, g ∈ groups ∧ lag_of_group admin g = Raise e ∧ l = LagWarning g e.
Proof.
  rewrite list_elem_of_join. split.
  - intros (ws & Hl & Hws). apply list_elem_of_fmap in Hws as (g & -> & Hg).
    unfold lag_warning in Hl.
    destruct (lag_of_group admin g) as [[lag|]|e] eqn:Hlag;
      try (by apply elem_of_nil in Hl).
    apply list_elem_of_singleton in Hl. by exists g, e.
  - intros (g & e & Hg & Hlag & ->). exists [LagWarning g e]. split.
    + by apply list_elem_of_singleton.
    + apply list_elem_of_fmap. exists g. split; [|done].
      unfold lag_warning. by rewrite Hlag.
Qed.

Lemma elem_of_lag_lines lag_threshold (gl : list (string * Z)) g l :
  (LagHigh g l ∈ lag_line lag_threshold <$> gl
   ↔ (g, l) ∈ gl ∧ lag_threshold < l)
  ∧ (LagNormal g l ∈ lag_line lag_threshold <$> gl
     ↔ (g, l) ∈ gl ∧ l ≤ lag_threshold).
Proof.
  split; rewrite list_elem_of_fmap; split.
  - intros ([g' l'] & Hline & Hin). unfold lag_line in Hline. simpl in Hline.
    destruct (Z.gtb_spec l' lag_threshold); [|discriminate].
    injection Hline as -> ->. split; [done|lia].
  - intros (Hin & Hlt). exists (g, l). split; [|done].
    unfold lag_line. simpl. destruct (Z.gtb_spec l lag_threshold); [done|lia].
  - intros ([g' l'] & Hline & Hin). unfold lag_line in Hline. simpl in Hline.
    destruct (Z.gtb_spec l' lag_threshold); [discriminate|].
    injection Hline as -> ->. split; [done|lia].
  - intros (Hin & Hle). exists (g, l). split; [|done].
    unfold lag_line. simpl. destruct (Z.gtb_spec l lag_threshold); [lia|done].
Qed.

(** Which lag lines the output of [check_lag] contains. *)
Lemma elem_of_check_lag_output admin groups lag_threshold gl g l :
  let out := [LagChecking] ++ mjoin (lag_warning admin <$> groups)
             ++ lag_report lag_threshold gl in
  (LagHigh g l ∈ out ↔ (g, l) ∈ gl ∧ lag_threshold < l)
  ∧ (LagNormal g l ∈ out ↔ (g, l) ∈ gl ∧ l ≤ lag_threshold).
Proof.
  intros out. subst out.
  destruct (elem_of_lag_lines lag_threshold gl g l) as [Hhigh Hnormal].
  rewrite <- Hhigh, <- Hnormal. clear Hhigh Hnormal.
  rewrite !elem_of_app, !list_elem_of_singleton, !elem_of_lag_warnings.
  unfold lag_report, lag_summary.
  destruct gl as [|item gl].
  - rewrite !list_elem_of_singleton, fmap_nil. split; split;
      try (intros Hnil; by apply elem_of_nil in Hnil);
      intros [H|[(g0 & e0 & _ & _ & H)|H]]; discriminate H.
  - rewrite !elem_of_app, !list_elem_of_singleton.
    destruct (List.filter _ (item :: gl)) as [|h high];
      split; split; try (intros H; right; right; right; by left);
      intros [H|[(g0 & e0 & _ & _ & H)|[H|[H|H]]]];
      try discriminate H; done.
Qed.

Lemma lag_warning_in_check_lag_output admin groups lag_threshold gl g e :
  LagWarning g e ∈ [LagChecking] ++ mjoin (lag_warning admin <$> groups)
                   ++ lag_report lag_threshold gl →
  lag_of_group admin g = Raise e.
Proof.
  rewrite !elem_of_app, !list_elem_of_singleton, elem_of_lag_warnings.
  intros [H|[(g0 & e0 & _ & Hlag & [= -> ->])|H]]; [discriminate|done|].
  exfalso. unfold lag_report, lag_summary in H. destruct gl as [|item gl].
  - apply list_elem_of_singleton in H. discriminate.
  - rewrite !elem_of_app, !list_elem_of_singleton in H.
    destruct H as [H|[H|H]]; [discriminate| |].
    + apply list_elem_of_fmap in H as ([g' l'] & H & _).
      unfold lag_line in H. simpl in H.
      destruct (l' >? lag_threshold); discriminate.
    + destruct (List.filter _ (item :: gl)); discriminate.
Qed.

(** C1. For a group that [check_lag] processes (its committed offsets are
    not empty and an end-offset is returned for each of its committed
    partitions), the lag in the report is the sum over the committed
    partitions of max(0, end-offset − committed offset); that sum is never
    negative; and the group is printed as high-lag exactly when the lag is
    strictly greater than the configured threshold, as normal otherwise. *)
Theorem check_lag_reports_total_lag env s admin s1 groups g committed latest
    (end_offset : TopicPartition → Z) :
  _get_admin_client env s = (Ret admin, s1) →
  list_consumer_groups admin = Ok groups →
  g ∈ groups →
  list_consumer_group_offsets admin g = Ok committed →
  committed ≠ ∅ →
  get_topic_end_offsets admin (dict_keys committed) = Ok latest →
  (∀ tp, is_Some (committed !! tp) → latest !! tp = Some (end_offset tp)) →
  let lag := spec_total_lag committed end_offset in
  let lag_threshold := config_get env lag_threshold 1000 in
  ∃ out,
    console (check_lag env s).2 = console s ++ out
    ∧ 0 ≤ lag
    ∧ (∀ l, LagHigh g l ∈ out ∨ LagNormal g l ∈ out → l = lag)
    ∧ (LagHigh g lag ∈ out ↔ lag_threshold < lag)
    ∧ (LagNormal g lag ∈ out ↔ lag ≤ lag_threshold).
Proof.
  intros Hadmin Hgroups Hg Hcommitted Hne Hlatest Hcov lag lag_threshold.
  destruct (check_lag_run env s admin s1 groups Hadmin Hgroups)
    as (s' & Hrun & Hconsole).
  fold lag_threshold in Hconsole.
  set (gl := foldl (lag_step admin) [] groups) in *.
  eexists. split; [by rewrite Hrun|].
  assert (lag_of_group admin g = Ok (Some lag)) as Hlag.
  { unfold lag_of_group. rewrite Hcommitted.
    apply dict_is_empty_false in Hne. rewrite Hne, Hlatest.
    by rewrite (partial_lag_covered _ _ end_offset). }
  assert (dict_get g gl = Some lag) as Hget.
  { unfold gl. rewrite lag_steps_get, Hlag. by rewrite decide_True. }
  assert (NoDup gl.*1) as Hnd by (apply lag_steps_NoDup, NoDup_nil_2).
  assert (∀ l, (g, l) ∈ gl ↔ l = lag) as Hentry.
  { intros l. split.
    - intros Hin. apply (dict_elem_of_get _ _ _ Hnd) in Hin. congruence.
    - intros ->. by apply dict_get_Some_elem_of. }
  split.
  { unfold lag.
    rewrite <- (partial_lag_covered committed latest end_offset Hcov).
    apply partial_lag_nonneg. }
  split; [|split].
  - intros l [Hin|Hin].
    + apply (elem_of_check_lag_output admin groups lag_threshold gl g l) in Hin.
      apply Hentry, Hin.
    + apply (elem_of_check_lag_output admin groups lag_threshold gl g l) in Hin.
      apply Hentry, Hin.
  - destruct (elem_of_check_lag_output admin groups lag_threshold gl g lag)
      as [-> _]. rewrite Hentry. naive_solver.
  - destruct (elem_of_check_lag_output admin groups lag_threshold gl g lag)
      as [_ ->]. rewrite Hentry. naive_solver.
Qed.

Lemma check_lag_reports_total_lag_witness :
  LagNormal "g1" 250 ∈ console (check_lag (g1_env 1000) init_state).2
  ∧ LagHigh "g1" 250 ∈ console (check_lag (g1_env 100) init_state).2.
Proof.
  assert ("g1" ∈ ["g0"; "g1"]) as Hin by (right; left).
  assert (g1_committed ≠ ∅) as Hne.
  { apply dict_is_empty_false. vm_compute. reflexivity. }
  assert (∀ tp, is_Some (g1_committed !! tp) → g1_latest !! tp = Some 350)
    as Hcov.
  { intros tp [om Hom]. unfold g1_committed in Hom.
    apply lookup_singleton_Some in Hom as [<- _]. vm_compute. reflexivity. }
  split.
  - destruct (check_lag_reports_total_lag (g1_env 1000) init_state g1_admin
                _ ["g0"; "g1"] "g1" g1_committed g1_latest (λ _, 350)
                eq_refl eq_refl Hin eq_refl Hne eq_refl
                Hcov)
      as (out & Hout & _ & _ & _ & Hnormal).
    rewrite Hout. apply elem_of_app. right.
    change (spec_total_lag g1_committed (λ _, 350)) with 250 in Hnormal.
    apply Hnormal. vm_compute. discriminate.
  - destruct (check_lag_reports_total_lag (g1_env 100) init_state g1_admin
                _ ["g0"; "g1"] "g1" g1_committed g1_latest (λ _, 350)
                eq_refl eq_refl Hin eq_refl Hne eq_refl
                Hcov)
      as (out & Hout & _ & _ & Hhigh & _).
    rewrite Hout. apply elem_of_app. right.
    change (spec_total_lag g1_committed (λ _, 350)) with 250 in Hhigh.
    apply Hhigh. vm_compute. reflexivity.
Defined.

(** C9. A group whose committed-offset map is empty is skipped by
    [check_lag] without a trace: the loop body leaves [group_lags] and the
    console as they were, the report has no line for the group (neither a lag
    line, high or normal, nor a warning), whereas the body of the loop of
    [find_stale_consumers] lists the same group as stale with reason
    "No commits". *)
Theorem check_lag_skips_group_without_commits env s admin s1 groups g :
  _get_admin_client env s = (Ret admin, s1) →
  list_consumer_groups admin = Ok groups →
  list_consumer_group_offsets admin g = Ok ∅ →
  (∀ gl s0, ∃ s0', check_lag_group admin gl g s0 = (Ret gl, s0')
                   ∧ console s0' = console s0)
  ∧ (∀ gl s0 gl' s0',
       check_lag_groups admin groups gl s0 = (Ret gl', s0') →
       g ∉ gl.*1 → g ∉ gl'.*1)
  ∧ (∃ out, console (check_lag env s).2 = console s ++ out
            ∧ ∀ l e, (LagHigh g l ∉ out) ∧ (LagNormal g l ∉ out)
                     ∧ (LagWarning g e ∉ out))
  ∧ (∀ threshold_ts stale s0,
       (find_stale_group env admin threshold_ts stale g s0).1
       = Ret (stale ++ [(g, NoCommits)])).
Proof.
  intros Hadmin Hgroups Hoffsets.
  assert (lag_of_group admin g = Ok None) as Hlag.
  { unfold lag_of_group. rewrite Hoffsets.
    by rewrite (proj2 (dict_is_empty_true ∅)). }
  assert (∀ gl, g ∉ gl.*1 → g ∉ (foldl (lag_step admin) gl groups).*1)
    as Hkeys.
  { intros gl Hnotin Hin. apply list_elem_of_fmap in Hin as ([g' l] & -> & Hin).
    simpl in *. apply dict_get_Some_elem_of_inv in Hin as (l' & Hget).
    rewrite lag_steps_get, Hlag in Hget.
    apply dict_get_Some_elem_of in Hget. apply Hnotin.
    apply list_elem_of_fmap. by exists (g', l'). }
  split; [|split; [|split]].
  - intros gl s0. destruct (check_lag_group_run admin gl g s0) as (s0' & Hrun & Hc).
    unfold lag_step, lag_warning in *. rewrite Hlag in *.
    exists s0'. by rewrite app_nil_r in Hc.
  - intros gl s0 gl' s0' Hrun.
    destruct (check_lag_groups_run admin groups gl s0) as (s2 & Hrun' & _).
    rewrite Hrun in Hrun'. injection Hrun' as -> _. apply Hkeys.
  - destruct (check_lag_run env s admin s1 groups Hadmin Hgroups)
      as (s' & Hrun & Hconsole).
    eexists. split; [by rewrite Hrun|].
    assert (∀ l, (g, l) ∉ foldl (lag_step admin) [] groups) as Hnone.
    { intros l Hin. apply (Hkeys []); [by intros ?%elem_of_nil|].
      apply list_elem_of_fmap. by exists (g, l). }
    intros l e. split; [|split].
    + intros Hin. apply elem_of_check_lag_output in Hin as [Hin _].
      by apply Hnone in Hin.
    + intros Hin. apply elem_of_check_lag_output in Hin as [Hin _].
      by apply Hnone in Hin.
    + intros Hin. apply lag_warning_in_check_lag_output in Hin. congruence.
  - intros threshold_ts stale s0.
    unfold find_stale_group, find_stale_group_try, try_except, bind,
      admin_call. simpl. rewrite Hoffsets. simpl.
    by rewrite (proj2 (dict_is_empty_true ∅)).
Qed.

Lemma check_lag_skips_group_without_commits_witness :
  ∃ out, console (check_lag (g1_env 1000) init_state).2 = [] ++ out
         ∧ ∀ l e, (LagHigh "g0" l ∉ out) ∧ (LagNormal "g0" l ∉ out)
                  ∧ (LagWarning "g0" e ∉ out).
Proof.
  exact (proj1 (proj2 (proj2
    (check_lag_skips_group_without_commits (g1_env 1000) init_state g1_admin
       _ ["g0"; "g1"] "g0" eq_refl eq_refl eq_refl)))).
Defined.

(** A sum over the entries of a dictionary does not depend on the order in
    which they are visited. *)
Lemma foldr_sum_insert {V} (f : TopicPartition * V → Z)
    (m : gmap TopicPartition V) (i : TopicPartition) (x : V) :
  m !! i = None →
  foldr (λ item acc, f item + acc) 0 (map_to_list (<[i:=x]> m))
  = f (i, x) + foldr (λ item acc, f item + acc) 0 (map_to_list m).
Proof.
  intros Hi.
  change (f (i, x) + foldr (λ item acc, f item + acc) 0 (map_to_list m))
    with (foldr (λ item acc, f item + acc) 0 ((i, x) :: map_to_list m)).
  apply (foldr_permutation_proper (=) (λ item acc, f item + acc) 0).
  - intros a1 a2 b. lia.
  - by apply map_to_list_insert.
Qed.

(** The total of the accumulation loop is the specification's sum taken
    over the committed partitions for which an end-offset was returned. *)
Lemma partial_lag_filter (committed : gmap TopicPartition OffsetAndMetadata)
    (latest : gmap TopicPartition Z) :
  partial_lag committed latest
  = spec_total_lag (filter (λ kv, is_Some (latest !! kv.1)) committed)
                   (λ tp, default 0 (latest !! tp)).
Proof.
  unfold partial_lag, spec_total_lag.
  induction committed as [|tp om committed Htp IH] using map_ind.
  - by rewrite map_filter_empty, map_to_list_empty.
  - rewrite (foldr_sum_insert (present_lag latest)) by done. rewrite IH.
    destruct (latest !! tp) as [e|] eqn:He.
    + rewrite map_filter_insert_True by (simpl; by rewrite He).
      rewrite (foldr_sum_insert
                 (λ item, Z.max 0 (default 0 (latest !! item.1)
                                   - offset item.2))).
      * unfold present_lag. simpl. by rewrite He.
      * apply map_lookup_filter_None. by left.
    + rewrite map_filter_insert_not.
      * unfold present_lag. simpl. by rewrite He.
      * intros y. simpl. rewrite He. by intros [? ?].
Qed.

(** C10. A partition that is in the committed offsets of a group but not in
    the end-offset answer is skipped by the accumulation loop: the loop ends
    without an error, its total is the sum over the partitions that were
    returned, no warning is printed for the group, and the group is reported
    and classified with that partial sum. *)
Theorem check_lag_skips_missing_end_offsets env s admin s1 groups g
    committed latest :
  _get_admin_client env s = (Ret admin, s1) →
  list_consumer_groups admin = Ok groups →
  g ∈ groups →
  list_consumer_group_offsets admin g = Ok committed →
  committed ≠ ∅ →
  get_topic_end_offsets admin (dict_keys committed) = Ok latest →
  let returned := filter (λ kv, is_Some (latest !! kv.1)) committed in
  let lag := spec_total_lag returned (λ tp, default 0 (latest !! tp)) in
  let lag_threshold := config_get env lag_threshold 1000 in
  sum_partition_lags committed latest (dict_keys committed) 0 = Ok lag
  ∧ (∀ tp om, committed !! tp = Some om → latest !! tp = None →
              present_lag latest (tp, om) = 0)
  ∧ ∃ out,
      console (check_lag env s).2 = console s ++ out
      ∧ (∀ e, LagWarning g e ∉ out)
      ∧ (LagHigh g lag ∈ out ∨ LagNormal g lag ∈ out)
      ∧ (LagHigh g lag ∈ out ↔ lag_threshold < lag)
      ∧ (LagNormal g lag ∈ out ↔ lag ≤ lag_threshold).
Proof.
  intros Hadmin Hgroups Hg Hcommitted Hne Hlatest returned lag lag_threshold.
  assert (partial_lag committed latest = lag) as Hpartial
    by apply partial_lag_filter.
  split; [by rewrite sum_partition_lags_keys, Hpartial|].
  split.
  { intros tp om _ Hnone. unfold present_lag. simpl. by rewrite Hnone. }
  destruct (check_lag_run env s admin s1 groups Hadmin Hgroups)
    as (s' & Hrun & Hconsole).
  fold lag_threshold in Hconsole.
  set (gl := foldl (lag_step admin) [] groups) in *.
  eexists. split; [by rewrite Hrun|].
  assert (lag_of_group admin g = Ok (Some lag)) as Hlag.
  { unfold lag_of_group. rewrite Hcommitted.
    apply dict_is_empty_false in Hne. by rewrite Hne, Hlatest, Hpartial. }
  assert (dict_get g gl = Some lag) as Hget.
  { unfold gl. rewrite lag_steps_get, Hlag. by rewrite decide_True. }
  apply dict_get_Some_elem_of in Hget.
  pose proof (elem_of_check_lag_output admin groups lag_threshold gl g lag)
    as [Hhigh Hnormal].
  split; [|split; [|split]].
  - intros e Hin. apply lag_warning_in_check_lag_output in Hin. congruence.
  - destruct (Z.lt_ge_cases lag_threshold lag).
    + left. by apply Hhigh.
    + right. apply Hnormal. split; [done|lia].
  - rewrite Hhigh. naive_solver.
  - rewrite Hnormal. naive_solver.
Qed.

Lemma check_lag_skips_missing_end_offsets_witness :
  sum_partition_lags g2_committed g1_latest (dict_keys g2_committed) 0 = Ok 250
  ∧ g1_latest !! ("topicB", 0) = None
  ∧ LagNormal "g2" 250 ∈ console (check_lag g2_env init_state).2.
Proof.
  assert (g2_committed ≠ ∅) as Hne.
  { apply dict_is_empty_false. vm_compute. reflexivity. }
  destruct (check_lag_skips_missing_end_offsets g2_env init_state g2_admin
              _ ["g2"] "g2" g2_committed g1_latest
              eq_refl eq_refl (list_elem_of_here _ _) eq_refl Hne eq_refl)
    as (Hsum & _ & out & Hout & _ & _ & _ & Hnormal).
  split; [exact Hsum|]. split; [reflexivity|].
  rewrite Hout. apply elem_of_app. right.
  apply Hnormal. vm_compute. discriminate.
Defined.

(** ** Cluster health *)

Lemma count_urp_partitions_spec (items : list (Z * PartitionInfo)) (acc : Z) :
  count_urp_partitions items acc
  = acc + len (List.filter under_replicated items.*2).
Proof.
  unfold count_urp_partitions, len. revert acc.
  induction items as [|[pid p] items IH]; intros acc.
  - simpl. lia.
  - rewrite fmap_cons. cbn [foldl List.filter snd]. rewrite IH.
    unfold under_replicated at 2.
    destruct (Nat.ltb_spec (length (isr p)) (length (replicas p)));
      destruct (Z.ltb_spec (Z.of_nat (length (isr p)))
                           (Z.of_nat (length (replicas p))));
      cbn [length]; lia.
Qed.

Lemma count_urp_spec (topic_metadata : gmap string TopicInfo) :
  count_urp topic_metadata 0 = spec_urp_count topic_metadata.
Proof.
  unfold count_urp, spec_urp_count, described_partitions.
  generalize (map_to_list topic_metadata). intros items.
  assert (∀ acc,
    foldl (λ urp_count (item : string * TopicInfo),
             count_urp_partitions (map_to_list (partitions item.2)) urp_count)
          acc items
    = acc + len (List.filter under_replicated
                   (item ← items; (map_to_list (partitions item.2)).*2)))
    as Hgen.
  { induction items as [|item items IH]; intros acc.
    - unfold len. simpl. lia.
    - rewrite bind_cons. cbn [foldl]. rewrite IH, count_urp_partitions_spec.
      rewrite List.filter_app. unfold len. rewrite length_app. lia. }
  rewrite Hgen. lia.
Qed.

Lemma health_check_run env s admin s1 metadata topics topic_metadata :
  _get_admin_client env s = (Ret admin, s1) →
  describe_cluster admin = Ok metadata →
  list_topics admin = Ok topics →
  (non_internal topics ≠ [] →
   describe_topics admin (non_internal topics) = Ok topic_metadata) →
  let urp_count :=
    match non_internal topics with
    | [] => 0
    | _ => spec_urp_count topic_metadata
    end in
  ∃ s', health_check env s = (Ret tt, s')
        ∧ console s' = console s ++ health_report metadata urp_count
        ∧ calls s' = calls s1 ++ [Admin ADescribeCluster; Admin AListTopics]
            ++ match non_internal topics with
               | [] => []
               | names => [Admin (ADescribeTopics names)]
               end.
Proof.
  intros Hadmin Hmd Htopics Hdescribe urp_count.
  unfold health_check. rewrite bind_echo.
  rewrite (bind_run _ _ _ _ _ (get_admin_client_echoed _ HealthChecking _ _ _
                                 Hadmin)).
  apply get_admin_client_Ret in Hadmin as (Hc1 & _).
  unfold try_except.
  rewrite (bind_admin_call_Ok _ _ _ _ _ Hmd).
  rewrite (bind_admin_call_Ok _ _ _ _ _ Htopics).
  subst urp_count.
  destruct (non_internal topics) as [|t ts] eqn:Hni.
  - rewrite bind_ret, !bind_echo, !echo_if, bind_echo.
    eexists. split; [done|]. split.
    + unfold health_report, echoed, logged. cbn [echo log_call snd console].
      rewrite Hc1, <- !app_assoc. done.
    + unfold echoed, logged. cbn [echo log_call snd calls].
      rewrite <- !app_assoc. done.
  - rewrite (bind_run _ _ _ (count_urp topic_metadata 0)
               (logged (Admin (ADescribeTopics (t :: ts)))
                  (logged (Admin AListTopics)
                     (logged (Admin ADescribeCluster)
                        (echoed HealthChecking s1))))).
    2:{ rewrite (bind_admin_call_Ok _ _ _ _ topic_metadata); [done|].
        by apply Hdescribe. }
    rewrite !bind_echo, !echo_if, bind_echo, count_urp_spec.
    eexists. split; [done|]. split.
    + unfold health_report, echoed, logged. cbn [echo log_call snd console].
      rewrite Hc1, <- !app_assoc. done.
    + unfold echoed, logged. cbn [echo log_call snd calls].
      rewrite <- !app_assoc. done.
Qed.

(** C2. [health_check] reports the cluster healthy exactly when the number of
    connected brokers equals the number of brokers and the under-replicated
    count is zero.  The count it prints is the number of described partitions
    whose in-sync-replica set is smaller than their replica set; the only
    topics it asks the client to describe are the listed topics whose name
    does not start with a double underscore, so when the client describes
    the topics it was asked for, no topic with that prefix is counted. *)
Theorem health_check_verdict env s admin s1 metadata topics topic_metadata :
  _get_admin_client env s = (Ret admin, s1) →
  describe_cluster admin = Ok metadata →
  list_topics admin = Ok topics →
  (non_internal topics ≠ [] →
   describe_topics admin (non_internal topics) = Ok topic_metadata) →
  let urp_count :=
    match non_internal topics with
    | [] => 0
    | _ => spec_urp_count topic_metadata
    end in
  let healthy :=
    len (nodes metadata) = len (brokers metadata) ∧ urp_count = 0 in
  ∃ out new_calls,
    console (health_check env s).2 = console s ++ out
    ∧ calls (health_check env s).2 = calls s ++ new_calls
    ∧ (ClusterHealthy ∈ out ↔ healthy)
    ∧ (ClusterHasIssues ∈ out ↔ ¬ healthy)
    ∧ (UrpOk urp_count ∈ out ↔ urp_count = 0)
    ∧ (UrpWarning urp_count ∈ out ↔ urp_count ≠ 0)
    ∧ (∀ n, UrpOk n ∈ out ∨ UrpWarning n ∈ out → n = urp_count)
    ∧ (∀ names, Admin (ADescribeTopics names) ∈ new_calls →
                names = non_internal topics)
    ∧ (∀ t, t ∈ non_internal topics
            ↔ t ∈ topics ∧ startswith t "__" = false)
    ∧ ((∀ t, is_Some (topic_metadata !! t) → t ∈ non_internal topics) →
       ∀ t, is_Some (topic_metadata !! t) → startswith t "__" = false).
Proof.
  intros Hadmin Hmd Htopics Hdescribe urp_count healthy.
  destruct (health_check_run env s admin s1 metadata topics topic_metadata
              Hadmin Hmd Htopics Hdescribe) as (s' & Hrun & Hconsole & Hcalls).
  fold urp_count in Hconsole.
  assert (∀ t, t ∈ non_internal topics
               ↔ t ∈ topics ∧ startswith t "__" = false) as Hni.
  { intros t. unfold non_internal. rewrite !list_elem_of_In, List.filter_In.
    by rewrite negb_true_iff. }
  apply get_admin_client_Ret in Hadmin
    as (_ & _ & _ & _ & pre & Hcalls1 & Hpre).
  exists (health_report metadata urp_count).
  exists (pre ++ [Admin ADescribeCluster; Admin AListTopics]
          ++ match non_internal topics with
             | [] => []
             | names => [Admin (ADescribeTopics names)]
             end).
  split; [by rewrite Hrun|].
  split.
  { rewrite Hrun. cbn [snd]. by rewrite Hcalls, Hcalls1, <- app_assoc. }
  unfold health_report.
  assert (((len (nodes metadata) =? len (brokers metadata))
           && (urp_count =? 0)) = true ↔ healthy) as Hverdict.
  { unfold healthy. rewrite andb_true_iff, !Z.eqb_eq. done. }
  split; [|split; [|split; [|split; [|split; [|split; [|split]]]]]].
  - rewrite <- Hverdict.
    destruct ((len (nodes metadata) =? len (brokers metadata))
              && (urp_count =? 0)); destruct (urp_count =? 0);
      rewrite !elem_of_cons, elem_of_nil; naive_solver.
  - rewrite <- Hverdict.
    destruct ((len (nodes metadata) =? len (brokers metadata))
              && (urp_count =? 0)); destruct (urp_count =? 0);
      rewrite !elem_of_cons, elem_of_nil; naive_solver.
  - destruct ((len (nodes metadata) =? len (brokers metadata))
              && (urp_count =? 0)); destruct (Z.eqb_spec urp_count 0);
      rewrite !elem_of_cons, elem_of_nil; naive_solver.
  - destruct ((len (nodes metadata) =? len (brokers metadata))
              && (urp_count =? 0)); destruct (Z.eqb_spec urp_count 0);
      rewrite !elem_of_cons, elem_of_nil; naive_solver.
  - intros n.
    destruct ((len (nodes metadata) =? len (brokers metadata))
              && (urp_count =? 0)); destruct (urp_count =? 0);
      rewrite !elem_of_cons, !elem_of_nil; naive_solver.
  - intros names Hin.
    destruct Hpre as [->|[cfg ->]]; destruct (non_internal topics);
      rewrite ?elem_of_app, ?elem_of_cons, ?elem_of_nil in Hin;
      naive_solver.
  - exact Hni.
  - intros Hcontract t Ht. by apply Hni, Hcontract.
Qed.

Lemma health_check_verdict_witness :
  UrpWarning 1 ∈ console (health_check health_env init_state).2
  ∧ ClusterHasIssues ∈ console (health_check health_env init_state).2
  ∧ ClusterHealthy ∉ console (health_check health_env init_state).2.
Proof.
  destruct (health_check_verdict health_env init_state health_admin _
              (mkClusterMetadata [1; 2; 3] [1; 2; 3] 1)
              ["orders"; "__consumer_offsets"] (health_describe ["orders"])
              eq_refl eq_refl eq_refl (λ _, eq_refl))
    as (out & new_calls & Hout & _ & Hhealthy & Hissues & _ & Hurp & _).
  rewrite Hout. change ([] ++ out) with out.
  assert (spec_urp_count (health_describe ["orders"]) = 1) as Hcount
    by (vm_compute; reflexivity).
  change (non_internal ["orders"; "__consumer_offsets"]) with ["orders"]
    in Hhealthy, Hissues, Hurp.
  cbv iota in Hhealthy, Hissues, Hurp.
  rewrite Hcount in Hhealthy, Hissues, Hurp.
  split; [by apply Hurp|]. split.
  - apply Hissues. intros [_ H]. discriminate H.
  - intros Hin. apply Hhealthy in Hin as [_ H]. discriminate H.
Defined.

(** ** Stale consumer groups *)

Lemma echo_all_run (lines : list Line) s :
  ∃ s', echo_all lines s = (Ret tt, s')
        ∧ console s' = console s ++ lines
        ∧ clock_reads s' = clock_reads s
        ∧ calls s' = calls s.
Proof.
  revert s. induction lines as [|l lines IH]; intros s.
  - exists s. by rewrite app_nil_r.
  - cbn [echo_all]. rewrite bind_echo.
    destruct (IH (echoed l s)) as (s' & -> & Hc & Hk & Hcalls).
    exists s'. split; [done|]. rewrite Hc, Hk, Hcalls, console_echoed.
    by rewrite <- app_assoc.
Qed.













(** ** Guarded deletion *)

(** The test [confirm.lower() != 'y'] passes for the inputs ["y"] and ["Y"]
    only; an empty input becomes the default ["N"]. *)
Lemma confirmation_accepts (input : string) :
  String.eqb (lower (prompt_value input "N")) "y" = true
  ↔ input = "y" ∨ input = "Y".
Proof.
  rewrite String.eqb_eq. destruct input as [|c input].
  - split; [discriminate|]. intros [H|H]; discriminate H.
  - apply lower_eq_y.
Qed.

Lemma delete_consumer_group_run env s admin s1 group_name :
  _get_admin_client env s = (Ret admin, s1) →
  ∃ s', delete_consumer_group env group_name s = (Ret tt, s')
        ∧ if decide (prompt_input env = "y" ∨ prompt_input env = "Y")
          then calls s' = calls s1 ++ [Admin (ADeleteConsumerGroups [group_name])]
               ∧ console s'
                 = console s ++ [match delete_consumer_groups admin [group_name] with
                                 | Ok _ => GroupDeleted group_name
                                 | Raise e => GroupDeleteError e
                                 end]
          else calls s' = calls s1
               ∧ console s' = console s ++ [OperationCancelled].
Proof.
  intros Hadmin. unfold delete_consumer_group.
  rewrite (bind_run _ _ _ _ _ Hadmin).
  apply get_admin_client_Ret in Hadmin as (Hc1 & _).
  unfold click_prompt. rewrite bind_ret.
  pose proof (confirmation_accepts (prompt_input env)) as Haccept.
  destruct (decide (prompt_input env = "y" ∨ prompt_input env = "Y"))
    as [Hyes|Hno].
  - apply Haccept in Hyes. rewrite Hyes. cbn [negb]. unfold try_except.
    destruct (delete_consumer_groups admin [group_name]) as [[]|e] eqn:Hdel.
    + rewrite (bind_admin_call_Ok _ _ _ _ tt eq_refl).
      eexists. split; [done|]. simpl. by rewrite Hc1.
    + rewrite (bind_admin_call_Raise _ _ _ _ e eq_refl).
      eexists. split; [done|]. simpl. by rewrite Hc1.
  - destruct (String.eqb _ "y") eqn:Heq; [by destruct Hno; apply Haccept|].
    cbn [negb]. eexists. split; [done|]. simpl. by rewrite Hc1.
Qed.

Lemma delete_topic_run env s admin s1 topic_name :
  _get_admin_client env s = (Ret admin, s1) →
  ∃ s', delete_topic env topic_name s = (Ret tt, s')
        ∧ if decide (prompt_input env = "y" ∨ prompt_input env = "Y")
          then calls s' = calls s1 ++ [Admin (ADeleteTopics [topic_name])]
               ∧ console s'
                 = console s ++ [match delete_topics admin [topic_name] with
                                 | Ok _ => TopicDeleted topic_name
                                 | Raise e => TopicDeleteError e
                                 end]
          else calls s' = calls s1
               ∧ console s' = console s ++ [OperationCancelled].
Proof.
  intros Hadmin. unfold delete_topic.
  rewrite (bind_run _ _ _ _ _ Hadmin).
  apply get_admin_client_Ret in Hadmin as (Hc1 & _).
  unfold click_prompt. rewrite bind_ret.
  pose proof (confirmation_accepts (prompt_input env)) as Haccept.
  destruct (decide (prompt_input env = "y" ∨ prompt_input env = "Y"))
    as [Hyes|Hno].
  - apply Haccept in Hyes. rewrite Hyes. cbn [negb]. unfold try_except.
    destruct (delete_topics admin [topic_name]) as [[]|e] eqn:Hdel.
    + rewrite (bind_admin_call_Ok _ _ _ _ tt eq_refl).
      eexists. split; [done|]. simpl. by rewrite Hc1.
    + rewrite (bind_admin_call_Raise _ _ _ _ e eq_refl).
      eexists. split; [done|]. simpl. by rewrite Hc1.
  - destruct (String.eqb _ "y") eqn:Heq; [by destruct Hno; apply Haccept|].
    cbn [negb]. eexists. split; [done|]. simpl. by rewrite Hc1.
Qed.

(** C5. Once the admin client is obtained, [delete_consumer_group] and
    [delete_topic] call the client exactly when the text typed at the prompt
    is the single letter y, in either case: then the one call made is the
    deletion of the named resource.  For every other input, the empty input
    (which becomes the default "N") included, no call is made at all and
    "Operation cancelled." is printed. *)
Theorem delete_only_when_confirmed env s admin s1 name :
  _get_admin_client env s = (Ret admin, s1) →
  let confirmed := prompt_input env = "y" ∨ prompt_input env = "Y" in
  (∃ new,
     calls (delete_consumer_group env name s).2 = calls s1 ++ new
     ∧ (Admin (ADeleteConsumerGroups [name]) ∈ new ↔ confirmed)
     ∧ (confirmed → new = [Admin (ADeleteConsumerGroups [name])])
     ∧ (¬ confirmed →
        new = []
        ∧ console (delete_consumer_group env name s).2
          = console s ++ [OperationCancelled]))
  ∧ (∃ new,
       calls (delete_topic env name s).2 = calls s1 ++ new
       ∧ (Admin (ADeleteTopics [name]) ∈ new ↔ confirmed)
       ∧ (confirmed → new = [Admin (ADeleteTopics [name])])
       ∧ (¬ confirmed →
          new = []
          ∧ console (delete_topic env name s).2
            = console s ++ [OperationCancelled]))
  ∧ (prompt_input env = "" → ¬ confirmed).
Proof.
  intros Hadmin confirmed. split; [|split].
  - destruct (delete_consumer_group_run env s admin s1 name Hadmin)
      as (s' & -> & Hs'). cbn [snd].
    destruct (decide (prompt_input env = "y" ∨ prompt_input env = "Y"))
      as [Hyes|Hno]; destruct Hs' as [Hcalls Hconsole].
    + eexists. split; [done|]. split; [|split]; [|done|done].
      split; [done|]. intros _. left.
    + exists []. split; [by rewrite app_nil_r|]. split; [|split]; [|done|done].
      split; [by intros ?%elem_of_nil|done].
  - destruct (delete_topic_run env s admin s1 name Hadmin)
      as (s' & -> & Hs'). cbn [snd].
    destruct (decide (prompt_input env = "y" ∨ prompt_input env = "Y"))
      as [Hyes|Hno]; destruct Hs' as [Hcalls Hconsole].
    + eexists. split; [done|]. split; [|split]; [|done|done].
      split; [done|]. intros _. left.
    + exists []. split; [by rewrite app_nil_r|]. split; [|split]; [|done|done].
      split; [by intros ?%elem_of_nil|done].
  - intros Hempty [H|H]; rewrite Hempty in H; discriminate H.
Qed.

Lemma delete_only_when_confirmed_witness :
  Admin (ADeleteConsumerGroups ["g1"])
    ∈ calls (delete_consumer_group (delete_env "Y") "g1" init_state).2
  ∧ console (delete_topic (delete_env "") "topicA" init_state).2
    = [OperationCancelled]
  ∧ (∀ c, Admin c
          ∉ calls (delete_topic (delete_env "yes") "topicA" init_state).2).
Proof.
  split; [|split].
  - destruct (delete_only_when_confirmed (delete_env "Y") init_state g1_admin
                _ "g1" eq_refl) as ((new & Hcalls & Hiff & _) & _ & _).
    rewrite Hcalls. apply elem_of_app. right. apply Hiff. by right.
  - destruct (delete_only_when_confirmed (delete_env "") init_state g1_admin
                _ "topicA" eq_refl) as (_ & (new & _ & _ & _ & Hno) & Hempty).
    by destruct (Hno (Hempty eq_refl)) as [_ ->].
  - destruct (delete_only_when_confirmed (delete_env "yes") init_state
                g1_admin _ "topicA" eq_refl)
      as (_ & (new & Hcalls & _ & _ & Hno) & _).
    destruct Hno as [-> _].
    { intros [H|H]; discriminate H. }
    intros c. rewrite Hcalls, app_nil_r. cbn.
    rewrite list_elem_of_singleton. discriminate.
Defined.

(** ** Which calls a piece of the program can issue *)

Section Issues.
Context (P : Call → Prop).

Lemma issues_ret {A} (a : A) : issues P (ret a).
Proof. intros s. exists []. by rewrite app_nil_r. Qed.

Lemma issues_raise {A} (e : exn) : issues P (raise (A := A) e).
Proof. intros s. exists []. by rewrite app_nil_r. Qed.

Lemma issues_sys_exit {A} (c : Z) : issues P (sys_exit (A := A) c).
Proof. intros s. exists []. by rewrite app_nil_r. Qed.

Lemma issues_lift {A} (r : result A) : issues P (lift r).
Proof. destruct r; [apply issues_ret|apply issues_raise]. Qed.

Lemma issues_echo (l : Line) : issues P (echo l).
Proof. intros s. exists []. by rewrite app_nil_r. Qed.

Lemma issues_now env : issues P (now env).
Proof. intros s. exists []. by rewrite app_nil_r. Qed.

Lemma issues_set_admin_client c : issues P (set_admin_client c).
Proof. intros s. exists []. by rewrite app_nil_r. Qed.

Lemma issues_set_consumer c : issues P (set_consumer c).
Proof. intros s. exists []. by rewrite app_nil_r. Qed.

Lemma issues_log_call (c : Call) : P c → issues P (log_call c).
Proof. intros Hc s. exists [c]. split; [done|]. by apply Forall_singleton. Qed.

Lemma issues_bind {A B} (m : M A) (k : A → M B) :
  issues P m → (∀ a, issues P (k a)) → issues P (bind m k).
Proof.
  intros Hm Hk s. unfold bind. destruct (Hm s) as (new1 & Hc1 & HP1).
  destruct (m s) as [[a|e|c] s1]; cbn [snd] in Hc1.
  - destruct (Hk a s1) as (new2 & Hc2 & HP2).
    exists (new1 ++ new2). rewrite Hc2, Hc1, <- app_assoc.
    split; [done|]. by apply Forall_app.
  - by exists new1.
  - by exists new1.
Qed.

Lemma issues_try_except {A} (m : M A) (h : exn → M A) :
  issues P m → (∀ e, issues P (h e)) → issues P (try_except m h).
Proof.
  intros Hm Hh s. unfold try_except. destruct (Hm s) as (new1 & Hc1 & HP1).
  destruct (m s) as [[a|e|c] s1]; cbn [snd] in Hc1.
  - by exists new1.
  - destruct (Hh e s1) as (new2 & Hc2 & HP2).
    exists (new1 ++ new2). rewrite Hc2, Hc1, <- app_assoc.
    split; [done|]. by apply Forall_app.
  - by exists new1.
Qed.

Lemma issues_admin_call {A} (c : AdminCall) (r : result A) :
  P (Admin c) → issues P (admin_call c r).
Proof.
  intros Hc. apply issues_bind; [by apply issues_log_call|].
  intros _. apply issues_lift.
Qed.

Lemma issues_consumer_call {A} (c : ConsumerCall)
    (r : list Call → result A) :
  P (Consumer c) → issues P (consumer_call c r).
Proof.
  intros Hc s. unfold consumer_call.
  apply (issues_bind (log_call (Consumer c)) (λ _, lift (r (calls s))));
    [by apply issues_log_call|].
  intros _. apply issues_lift.
Qed.

Lemma issues_echo_all (lines : list Line) : issues P (echo_all lines).
Proof.
  induction lines as [|l lines IH]; [apply issues_ret|].
  apply issues_bind; [apply issues_echo|done].
Qed.
End Issues.

Lemma issues_weaken {A} (P Q : Call → Prop) (m : M A) :
  (∀ c, P c → Q c) → issues P m → issues Q m.
Proof.
  intros HPQ Hm s. destruct (Hm s) as (new & Hc & HP).
  exists new. split; [done|]. by eapply Forall_impl.
Qed.

Ltac issues_step :=
  first
    [ apply issues_ret | apply issues_raise | apply issues_sys_exit
    | apply issues_lift | apply issues_echo | apply issues_now
    | apply issues_set_admin_client | apply issues_set_consumer
    | apply issues_echo_all
    | apply issues_bind; [|intros ?]
    | apply issues_try_except; [|intros ?]
    | apply issues_admin_call
    | apply issues_consumer_call
    | apply issues_log_call
    | match goal with
      | |- issues _ (match ?x with _ => _ end) => destruct x
      end ].

(** The calls of the commands, for any property that holds of the creation
    of the admin client, of the creation of a consumer without auto-commit,
    of every admin call except [close], and of every consumer call except
    [commit] and [close]. *)
Section CommandCalls.
Context (P : Call → Prop) (env : Env).
Hypothesis P_new_admin : ∀ cfg, P (NewAdmin cfg).
Hypothesis P_new_consumer :
  ∀ cfg, cc_enable_auto_commit cfg = false → P (NewConsumer cfg).
Hypothesis P_admin : ∀ c, c ≠ AClose → P (Admin c).
Hypothesis P_consumer : ∀ c, c ≠ CCommit → c ≠ CClose → P (Consumer c).

Lemma issues_get_bootstrap_servers : issues P (_get_bootstrap_servers env).
Proof. unfold _get_bootstrap_servers. repeat issues_step. Qed.

Lemma issues_get_admin_client : issues P (_get_admin_client env).
Proof.
  intros s. unfold _get_admin_client. destruct (self_admin_client s).
  - apply issues_ret.
  - revert s. apply issues_bind; [apply issues_get_bootstrap_servers|].
    intros servers. repeat issues_step. apply P_new_admin.
Qed.

Lemma issues_get_consumer : issues P (_get_consumer env).
Proof.
  intros s. unfold _get_consumer. destruct (self_consumer s).
  - apply issues_ret.
  - revert s. apply issues_bind; [apply issues_get_bootstrap_servers|].
    intros servers. repeat issues_step. by apply P_new_consumer.
Qed.

Lemma issues_health_check : issues P (health_check env).
Proof.
  unfold health_check.
  apply issues_bind; [apply issues_echo|]. intros _.
  apply issues_bind; [apply issues_get_admin_client|]. intros admin.
  repeat issues_step; by apply P_admin.
Qed.

Lemma issues_check_lag_groups admin groups gl :
  issues P (check_lag_groups admin groups gl).
Proof.
  revert gl. induction groups as [|g groups IH]; intros gl; cbn.
  - apply issues_ret.
  - apply issues_bind; [|done].
    unfold check_lag_group, check_lag_group_try.
    repeat issues_step; by apply P_admin.
Qed.

Lemma issues_report_lags t items high : issues P (report_lags t items high).
Proof.
  revert high. induction items as [|[g lag] items IH]; intros high; cbn.
  - apply issues_ret.
  - destruct (lag >? t); (apply issues_bind; [apply issues_echo|done]).
Qed.

Lemma issues_check_lag : issues P (check_lag env).
Proof.
  unfold check_lag.
  apply issues_bind; [apply issues_echo|]. intros _.
  apply issues_bind; [apply issues_get_admin_client|]. intros admin.
  apply issues_try_except; [|intros; apply issues_echo].
  apply issues_bind; [by apply issues_admin_call, P_admin|]. intros groups.
  apply issues_bind; [apply issues_check_lag_groups|]. intros gl.
  destruct gl; [apply issues_echo|].
  apply issues_bind; [apply issues_echo|]. intros _.
  apply issues_bind; [apply issues_report_lags|]. intros high.
  destruct high; apply issues_echo.
Qed.

Lemma issues_find_stale_groups admin t groups stale :
  issues P (find_stale_groups env admin t groups stale).
Proof.
  revert stale. induction groups as [|g groups IH]; intros stale; cbn.
  - apply issues_ret.
  - apply issues_bind; [|done].
    unfold find_stale_group, find_stale_group_try.
    repeat issues_step; by apply P_admin.
Qed.

Lemma issues_find_stale_consumers : issues P (find_stale_consumers env).
Proof.
  unfold find_stale_consumers.
  apply issues_bind; [apply issues_echo|]. intros _.
  apply issues_bind; [apply issues_get_admin_client|]. intros admin.
  apply issues_bind; [apply issues_now|]. intros t0.
  apply issues_try_except; [|intros; apply issues_echo].
  apply issues_bind; [by apply issues_admin_call, P_admin|]. intros groups.
  apply issues_bind; [apply issues_find_stale_groups|]. intros stale.
  destruct stale; repeat issues_step.
Qed.

Lemma issues_inspect_partitions consumer offsets ps ts :
  issues P (inspect_partitions consumer offsets ps ts).
Proof.
  revert ts. induction ps as [|p ps IH]; intros ts; cbn.
  - apply issues_ret.
  - destruct (offsets !! p) as [e|]; [|apply issues_raise].
    destruct (e >? 0); [|done].
    apply issues_bind; [by apply issues_consumer_call, P_consumer|].
    intros _.
    apply issues_bind; [by apply issues_consumer_call, P_consumer|].
    intros _.
    apply issues_bind; [by apply issues_consumer_call, P_consumer|].
    intros messages. done.
Qed.

Lemma issues_find_unused_topic consumer t unused topic :
  issues P (find_unused_topic env consumer t unused topic).
Proof.
  unfold find_unused_topic, find_unused_topic_try.
  apply issues_try_except; [|intros; repeat issues_step].
  apply issues_bind; [by apply issues_consumer_call, P_consumer|].
  intros [[|p ps]|]; try apply issues_ret.
  apply issues_bind; [by apply issues_consumer_call, P_consumer|].
  intros offsets.
  apply issues_bind; [apply issues_inspect_partitions|]. intros ts.
  destruct (_ && _); repeat issues_step.
Qed.

Lemma issues_find_unused_in consumer t topics unused :
  issues P (find_unused_in env consumer t topics unused).
Proof.
  revert unused. induction topics as [|topic topics IH]; intros unused; cbn.
  - apply issues_ret.
  - apply issues_bind; [apply issues_find_unused_topic|done].
Qed.

Lemma issues_find_unused_topics : issues P (find_unused_topics env).
Proof.
  unfold find_unused_topics.
  apply issues_bind; [apply issues_echo|]. intros _.
  apply issues_bind; [apply issues_get_admin_client|]. intros admin.
  apply issues_bind; [apply issues_get_consumer|]. intros consumer.
  apply issues_bind; [apply issues_now|]. intros t0.
  apply issues_try_except; [|intros; apply issues_echo].
  apply issues_bind; [by apply issues_admin_call, P_admin|]. intros topics.
  apply issues_bind; [apply issues_find_unused_in|]. intros unused.
  destruct unused; repeat issues_step.
Qed.

Lemma issues_delete_consumer_group name :
  issues P (delete_consumer_group env name).
Proof.
  unfold delete_consumer_group, click_prompt.
  apply issues_bind; [apply issues_get_admin_client|]. intros admin.
  apply issues_bind; [apply issues_ret|]. intros confirm.
  destruct (negb _); repeat issues_step; by apply P_admin.
Qed.

Lemma issues_delete_topic name : issues P (delete_topic env name).
Proof.
  unfold delete_topic, click_prompt.
  apply issues_bind; [apply issues_get_admin_client|]. intros admin.
  apply issues_bind; [apply issues_ret|]. intros confirm.
  destruct (negb _); repeat issues_step; by apply P_admin.
Qed.

Lemma issues_run_command cmd : issues P (run_command env cmd).
Proof.
  destruct cmd; cbn.
  - apply issues_health_check.
  - apply issues_check_lag.
  - apply issues_find_stale_consumers.
  - apply issues_find_unused_topics.
  - apply issues_delete_consumer_group.
  - apply issues_delete_topic.
Qed.
End CommandCalls.

(** ** Unused topics: the inspection of the last message *)


Lemma scan_messages_cons partition item items ts :
  scan_messages partition (item :: items) ts
  = scan_messages partition items
      (if tp_partition item.1 =? partition then
         match item.2 with
         | m :: _ => Z.max ts (timestamp m)
         | [] => ts
         end
       else ts).
Proof. done. Qed.

(** The result of that loop is the timestamp it started from or the
    timestamp of the first record of one of the batches. *)
Lemma scan_messages_result partition items ts :
  ts ≤ scan_messages partition items ts
  ∧ (scan_messages partition items ts = ts
     ∨ ∃ tp m msgs, (tp, m :: msgs) ∈ items
                    ∧ timestamp m = scan_messages partition items ts).
Proof.
  revert ts. induction items as [|[tp msgs] items IH]; intros ts.
  - split; [done|by left].
  - rewrite scan_messages_cons. cbn [fst snd].
    set (ts' := if tp_partition tp =? partition then
                  match msgs with
                  | m :: _ => Z.max ts (timestamp m)
                  | [] => ts
                  end
                else ts).
    assert (ts ≤ ts'
            ∧ (ts' = ts ∨ ∃ m msgs', msgs = m :: msgs' ∧ timestamp m = ts'))
      as [Hle Hts'].
    { subst ts'.
      destruct (tp_partition tp =? partition); [|split; [lia|by left]].
      destruct msgs as [|m msgs']; [split; [lia|by left]|]. split; [lia|].
      destruct (Z.max_spec ts (timestamp m)) as [[_ ->]|[_ ->]]; [|by left].
      right. by exists m, msgs'. }
    destruct (IH ts') as [Hle' Hres]. split; [lia|].
    destruct Hres as [Heq|(tp0 & m & msgs0 & Hin & Hm)].
    + rewrite Heq. destruct Hts' as [->|(m & msgs' & -> & Hm)]; [by left|].
      right. exists tp, m, msgs'. split; [left|done].
    + right. exists tp0, m, msgs0. split; [by right|done].
Qed.

Lemma inspection_calls_cons offsets p ps :
  inspection_calls offsets (p :: ps)
  = match offsets !! p with
    | Some end_offset =>
        if end_offset >? 0
        then [Consumer (CSeekToEnd p); Consumer (CSeek p (end_offset - 1));
              Consumer (CPoll 1000)]
        else []
    | None => []
    end ++ inspection_calls offsets ps.
Proof.
  unfold inspection_calls, non_empty_partitions. cbn [List.filter].
  destruct (offsets !! p) as [e|] eqn:He; [|done].
  destruct (e >? 0); [|done]. rewrite bind_cons, He. done.
Qed.

(** When the partition loop returns, the calls it has made are the
    inspection calls, and neither the console nor the clock has changed. *)
Lemma inspect_partitions_Ret consumer offsets ps ts s ts' s' :
  inspect_partitions consumer offsets ps ts s = (Ret ts', s') →
  calls s' = calls s ++ inspection_calls offsets ps
  ∧ console s' = console s ∧ clock_reads s' = clock_reads s
  ∧ ts ≤ ts'
  ∧ (ts' = ts ∨ polled consumer (calls s) (calls s') ts').
Proof.
  revert ts s. induction ps as [|p ps IH]; intros ts s Hrun.
  - injection Hrun as <- <-. rewrite app_nil_r. split_and!; auto. lia.
  - cbn [inspect_partitions] in Hrun. rewrite inspection_calls_cons.
    destruct (offsets !! p) as [e|]; [|discriminate].
    destruct (e >? 0).
    + destruct (seek_to_end consumer (calls s) p) as [[]|err] eqn:H1;
        [|by rewrite (bind_consumer_call_Raise _ _ _ _ err H1) in Hrun].
      rewrite (bind_consumer_call_Ok _ _ _ _ tt H1) in Hrun.
      destruct (seek consumer (calls (logged (Consumer (CSeekToEnd p)) s)) p
                     (e - 1)) as [[]|err] eqn:H2;
        [|by rewrite (bind_consumer_call_Raise _ _ _ _ err H2) in Hrun].
      rewrite (bind_consumer_call_Ok _ _ _ _ tt H2) in Hrun.
      destruct (poll consumer
                  (calls (logged (Consumer (CSeek p (e - 1)))
                            (logged (Consumer (CSeekToEnd p)) s))) 1000)
        as [messages|err] eqn:H3;
        [|by rewrite (bind_consumer_call_Raise _ _ _ _ err H3) in Hrun].
      rewrite (bind_consumer_call_Ok _ _ _ _ messages H3) in Hrun.
      apply IH in Hrun as (Hcalls & Hconsole & Hclock & Hle & Hts).
      repeat rewrite calls_logged in *.
      repeat rewrite console_logged in *.
      repeat rewrite clock_reads_logged in *.
      destruct (scan_messages_result p (map_to_list messages) ts)
        as [Hle0 Hscan].
      split; [by rewrite Hcalls, <- !app_assoc|].
      split; [done|]. split; [done|]. split; [lia|].
      destruct Hts as [->|Hpolled].
      * destruct Hscan as [->|(tp & m & msgs & Hin & Hm)]; [by left|].
        right. exists ((calls s ++ [Consumer (CSeekToEnd p)])
                       ++ [Consumer (CSeek p (e - 1))]), tp, m, msgs, messages.
        split; [rewrite <- app_assoc; by apply prefix_app_r|].
        split; [rewrite Hcalls; by apply prefix_app_r|].
        split; [done|]. split; [by apply elem_of_map_to_list|done].
      * right. destruct Hpolled as (h & tp & m & msgs & batches & Hpre & Hpost
                                    & Hpoll & Hbatch & Hm).
        exists h, tp, m, msgs, batches. split; [|done].
        etrans; [|exact Hpre]. rewrite <- !app_assoc. by apply prefix_app_r.
    + by apply IH in Hrun.
Qed.

(** ** Pieces of the program that cannot exit, or that always return *)

Lemma no_exit_ret {A} (a : A) : no_exit (ret a).
Proof. by intros s c. Qed.

Lemma no_exit_raise {A} (e : exn) : no_exit (raise (A := A) e).
Proof. by intros s c. Qed.

Lemma no_exit_lift {A} (r : result A) : no_exit (lift r).
Proof. by destruct r. Qed.


Lemma no_exit_now env : no_exit (now env).
Proof. by intros s c. Qed.

Lemma no_exit_bind {A B} (m : M A) (k : A → M B) :
  no_exit m → (∀ a, no_exit (k a)) → no_exit (bind m k).
Proof.
  intros Hm Hk s c. unfold bind. specialize (Hm s).
  destruct (m s) as [[a|e|c'] s1]; cbn [fst] in *; [apply Hk|done|].
  by destruct (Hm c').
Qed.

Lemma no_exit_admin_call {A} (c : AdminCall) (r : result A) :
  no_exit (admin_call c r).
Proof. by destruct r. Qed.

Lemma no_exit_consumer_call {A} (c : ConsumerCall)
    (r : list Call → result A) :
  no_exit (consumer_call c r).
Proof.
  intros s c'. unfold consumer_call, bind. cbn. by destruct (r (calls s)).
Qed.

Lemma no_exit_inspect_partitions consumer offsets ps ts :
  no_exit (inspect_partitions consumer offsets ps ts).
Proof.
  revert ts. induction ps as [|p ps IH]; intros ts; cbn.
  - apply no_exit_ret.
  - destruct (offsets !! p) as [e|]; [|apply no_exit_raise].
    destruct (e >? 0); [|done].
    repeat (apply no_exit_bind; [apply no_exit_consumer_call|intros ?]).
    done.
Qed.

(** A [try] whose block cannot exit and whose handler returns, returns. *)
Lemma returns_try_except {A} (m : M A) (h : exn → M A) :
  no_exit m → (∀ e, returns (h e)) → returns (try_except m h).
Proof.
  intros Hm Hh s. unfold try_except. specialize (Hm s).
  destruct (m s) as [[a|e|c] s1]; cbn [fst] in *.
  - by exists a.
  - apply Hh.
  - by destruct (Hm c).
Qed.

Lemma returns_bind {A B} (m : M A) (k : A → M B) :
  returns m → (∀ a, returns (k a)) → returns (bind m k).
Proof.
  intros Hm Hk s. unfold bind. destruct (Hm s) as [a Ha].
  destruct (m s) as [o s1]. cbn [fst] in Ha. subst o. apply Hk.
Qed.

Lemma returns_ret {A} (a : A) : returns (ret a).
Proof. intros s. by exists a. Qed.

Lemma returns_echo (l : Line) : returns (echo l).
Proof. intros s. by exists tt. Qed.

Lemma no_exit_check_lag_group_try admin gl g :
  no_exit (check_lag_group_try admin gl g).
Proof.
  unfold check_lag_group_try.
  apply no_exit_bind; [apply no_exit_admin_call|]. intros committed.
  destruct (dict_is_empty committed); [apply no_exit_ret|].
  apply no_exit_bind; [apply no_exit_admin_call|]. intros latest.
  apply no_exit_bind; [apply no_exit_lift|]. intros total.
  apply no_exit_ret.
Qed.

Lemma no_exit_find_stale_group_try env admin t stale g :
  no_exit (find_stale_group_try env admin t stale g).
Proof.
  unfold find_stale_group_try.
  apply no_exit_bind; [apply no_exit_admin_call|]. intros offsets.
  destruct (dict_is_empty offsets); [apply no_exit_ret|].
  apply no_exit_bind; [apply no_exit_lift|]. intros latest.
  destruct (_ <? _); [|apply no_exit_ret].
  apply no_exit_bind; [apply no_exit_now|]. intros t'. apply no_exit_ret.
Qed.

Lemma no_exit_find_unused_topic_try env consumer t unused topic :
  no_exit (find_unused_topic_try env consumer t unused topic).
Proof.
  unfold find_unused_topic_try.
  apply no_exit_bind; [apply no_exit_consumer_call|].
  intros [[|p ps]|]; try apply no_exit_ret.
  apply no_exit_bind; [apply no_exit_consumer_call|]. intros offsets.
  apply no_exit_bind; [apply no_exit_inspect_partitions|]. intros ts.
  destruct (_ && _); [|apply no_exit_ret].
  apply no_exit_bind; [apply no_exit_now|]. intros t'. apply no_exit_ret.
Qed.

(** The body of each of the three scan loops always returns: an error in the
    [try] block ends in the handler, which prints and returns. *)
Lemma returns_check_lag_group admin gl g : returns (check_lag_group admin gl g).
Proof.
  apply returns_try_except; [apply no_exit_check_lag_group_try|].
  intros e. apply returns_bind; [apply returns_echo|].
  intros _. apply returns_ret.
Qed.

Lemma returns_find_stale_group env admin t stale g :
  returns (find_stale_group env admin t stale g).
Proof.
  apply returns_try_except; [apply no_exit_find_stale_group_try|].
  intros e. apply returns_bind; [apply returns_echo|].
  intros _. apply returns_ret.
Qed.

Lemma returns_find_unused_topic env consumer t unused topic :
  returns (find_unused_topic env consumer t unused topic).
Proof.
  apply returns_try_except; [apply no_exit_find_unused_topic_try|].
  intros e. apply returns_bind; [apply returns_echo|].
  intros _. apply returns_ret.
Qed.

Lemma returns_check_lag_groups admin groups gl :
  returns (check_lag_groups admin groups gl).
Proof.
  revert gl. induction groups as [|g groups IH]; intros gl; cbn.
  - apply returns_ret.
  - apply returns_bind; [apply returns_check_lag_group|done].
Qed.

Lemma returns_find_stale_groups env admin t groups stale :
  returns (find_stale_groups env admin t groups stale).
Proof.
  revert stale. induction groups as [|g groups IH]; intros stale; cbn.
  - apply returns_ret.
  - apply returns_bind; [apply returns_find_stale_group|done].
Qed.

Lemma returns_find_unused_in env consumer t topics unused :
  returns (find_unused_in env consumer t topics unused).
Proof.
  revert unused. induction topics as [|topic topics IH]; intros unused; cbn.
  - apply returns_ret.
  - apply returns_bind; [apply returns_find_unused_topic|done].
Qed.

(** ** Errors on one item of a scan *)

Lemma check_lag_groups_app admin l1 l2 gl s :
  check_lag_groups admin (l1 ++ l2) gl s
  = bind (check_lag_groups admin l1 gl)
         (λ gl1, check_lag_groups admin l2 gl1) s.
Proof.
  revert gl s. induction l1 as [|g l1 IH]; intros gl s; [done|].
  cbn [app check_lag_groups]. unfold bind.
  destruct (check_lag_group admin gl g s) as [[gl'|e|c] s']; [|done..].
  apply IH.
Qed.

Lemma find_stale_groups_app env admin t l1 l2 stale s :
  find_stale_groups env admin t (l1 ++ l2) stale s
  = bind (find_stale_groups env admin t l1 stale)
         (λ stale1, find_stale_groups env admin t l2 stale1) s.
Proof.
  revert stale s. induction l1 as [|g l1 IH]; intros stale s; [done|].
  cbn [app find_stale_groups]. unfold bind.
  destruct (find_stale_group env admin t stale g s) as [[stale'|e|c] s'];
    [|done..].
  apply IH.
Qed.

Lemma find_unused_in_app env consumer t l1 l2 unused s :
  find_unused_in env consumer t (l1 ++ l2) unused s
  = bind (find_unused_in env consumer t l1 unused)
         (λ unused1, find_unused_in env consumer t l2 unused1) s.
Proof.
  revert unused s. induction l1 as [|g l1 IH]; intros unused s; [done|].
  cbn [app find_unused_in]. unfold bind.
  destruct (find_unused_topic env consumer t unused g s)
    as [[unused'|e|c] s']; [|done..].
  apply IH.
Qed.

(** C6. In each of the three scans, when the [try] block of one group or
    topic raises an error, the scan goes on: the whole scan is the scan of
    the remaining items, started from the results accumulated before the
    failing item and from the state in which the warning for the failing
    item has been printed.  No scan loop ever ends in an error or an exit:
    it returns a result for every list of items and every state. *)
Theorem scan_continues_after_item_error env :
  (∀ admin l1 g l2 gl s gl1 s1 e s2,
     check_lag_groups admin l1 gl s = (Ret gl1, s1) →
     check_lag_group_try admin gl1 g s1 = (Exc e, s2) →
     check_lag_groups admin (l1 ++ g :: l2) gl s
     = check_lag_groups admin l2 gl1 (echoed (LagWarning g e) s2))
  ∧ (∀ admin t l1 g l2 stale s stale1 s1 e s2,
       find_stale_groups env admin t l1 stale s = (Ret stale1, s1) →
       find_stale_group_try env admin t stale1 g s1 = (Exc e, s2) →
       find_stale_groups env admin t (l1 ++ g :: l2) stale s
       = find_stale_groups env admin t l2 stale1
           (echoed (StaleWarning g e) s2))
  ∧ (∀ consumer t l1 topic l2 unused s unused1 s1 e s2,
       find_unused_in env consumer t l1 unused s = (Ret unused1, s1) →
       find_unused_topic_try env consumer t unused1 topic s1 = (Exc e, s2) →
       find_unused_in env consumer t (l1 ++ topic :: l2) unused s
       = find_unused_in env consumer t l2 unused1
           (echoed (UnusedWarning topic e) s2))
  ∧ (∀ admin groups gl, returns (check_lag_groups admin groups gl))
  ∧ (∀ admin t groups stale,
       returns (find_stale_groups env admin t groups stale))
  ∧ (∀ consumer t topics unused,
       returns (find_unused_in env consumer t topics unused)).
Proof.
  split_and!.
  - intros admin l1 g l2 gl s gl1 s1 e s2 Hl1 Hg.
    rewrite check_lag_groups_app. rewrite (bind_run _ _ _ _ _ Hl1).
    cbn [check_lag_groups]. unfold bind at 1, check_lag_group, try_except.
    by rewrite Hg.
  - intros admin t l1 g l2 stale s stale1 s1 e s2 Hl1 Hg.
    rewrite find_stale_groups_app. rewrite (bind_run _ _ _ _ _ Hl1).
    cbn [find_stale_groups]. unfold bind at 1, find_stale_group, try_except.
    by rewrite Hg.
  - intros consumer t l1 topic l2 unused s unused1 s1 e s2 Hl1 Hg.
    rewrite find_unused_in_app. rewrite (bind_run _ _ _ _ _ Hl1).
    cbn [find_unused_in]. unfold bind at 1, find_unused_topic, try_except.
    by rewrite Hg.
  - apply returns_check_lag_groups.
  - apply returns_find_stale_groups.
  - apply returns_find_unused_in.
Qed.

Lemma scan_continues_after_item_error_witness :
  check_lag_groups stale_admin ["idle"; "broken"; "old"; "fresh"] []
                   init_state
  = check_lag_groups stale_admin ["old"; "fresh"] []
      (echoed (LagWarning "broken" "group coordinator gone")
         (logged (Admin (AListConsumerGroupOffsets "broken"))
            (logged (Admin (AListConsumerGroupOffsets "idle")) init_state)))
  ∧ (find_stale_groups stale_env stale_admin (70 * us_per_day)
       ["idle"; "broken"; "old"; "fresh"] [] init_state).1
    = Ret [("idle", NoCommits); ("old", DaysOld (60 * us_per_day))]
  ∧ StaleWarning "broken" "group coordinator gone"
      ∈ console (find_stale_groups stale_env stale_admin (70 * us_per_day)
                   ["idle"; "broken"; "old"; "fresh"] [] init_state).2.
Proof.
  destruct (scan_continues_after_item_error stale_env)
    as (Hlag & Hstale & _).
  pose proof (Hstale stale_admin (70 * us_per_day) ["idle"] "broken"
                ["old"; "fresh"] [] init_state _ _ _ _ eq_refl eq_refl)
    as Hscan.
  change (["idle"] ++ ["broken"; "old"; "fresh"])
    with ["idle"; "broken"; "old"; "fresh"] in Hscan.
  split; [|split].
  - exact (Hlag stale_admin ["idle"] "broken" ["old"; "fresh"] [] init_state
             _ _ _ _ eq_refl eq_refl).
  - rewrite Hscan. vm_compute. reflexivity.
  - rewrite Hscan. vm_compute. apply list_elem_of_here.
Defined.

(** ** Pieces of the program that print nothing *)

Lemma quiet_ret {A} (a : A) : quiet (ret a).
Proof. by intros s. Qed.

Lemma quiet_raise {A} (e : exn) : quiet (raise (A := A) e).
Proof. by intros s. Qed.

Lemma quiet_bind {A B} (m : M A) (k : A → M B) :
  quiet m → (∀ a, quiet (k a)) → quiet (bind m k).
Proof.
  intros Hm Hk s. unfold bind. destruct (Hm s) as [Hc Hr].
  destruct (m s) as [[a|e|c] s1]; cbn [snd] in *; [|done..].
  destruct (Hk a s1) as [Hc' Hr']. by rewrite Hc', Hr'.
Qed.

Lemma quiet_consumer_call {A} (c : ConsumerCall) (r : list Call → result A) :
  quiet (consumer_call c r).
Proof.
  intros s. unfold consumer_call, bind. cbn. by destruct (r (calls s)).
Qed.

Lemma quiet_inspect_partitions consumer offsets ps ts :
  quiet (inspect_partitions consumer offsets ps ts).
Proof.
  revert ts. induction ps as [|p ps IH]; intros ts; cbn.
  - apply quiet_ret.
  - destruct (offsets !! p) as [e|]; [|apply quiet_raise].
    destruct (e >? 0); [|done].
    repeat (apply quiet_bind; [apply quiet_consumer_call|intros ?]).
    done.
Qed.

(** ** Unused topics: one topic, and the scan *)

Lemma calls_prefix_of_issues {A} (m : M A) s :
  issues (λ _, True) m → calls s `prefix_of` calls (m s).2.
Proof. intros Hm. destruct (Hm s) as (new & -> & _). by apply prefix_app_r. Qed.

Lemma polled_weaken consumer b a b' a' ts :
  polled consumer b a ts → b' `prefix_of` b → a `prefix_of` a' →
  polled consumer b' a' ts.
Proof.
  intros (h & tp & m & msgs & batches & Hb & Ha & Hrest) Hb' Ha'.
  exists h, tp, m, msgs, batches. split; [by etrans|]. split; [by etrans|done].
Qed.

(** What the body of the topic loop does: it returns; it prints at most a
    warning; and if it adds the topic to the list, then a positive timestamp,
    older than the threshold, was obtained from a poll made for this topic,
    and the reason carries the age [now − timestamp]. *)
Lemma find_unused_topic_run env consumer t unused topic s :
  ∃ unused' s' ws,
    find_unused_topic env consumer t unused topic s = (Ret unused', s')
    ∧ console s' = console s ++ ws
    ∧ (ws = [] ∨ ∃ e, ws = [UnusedWarning topic e])
    ∧ calls s `prefix_of` calls s'
    ∧ (clock_reads s ≤ clock_reads s')%nat
    ∧ (unused' = unused
       ∨ ∃ ts, unused'
               = unused ++ [(topic, DaysOld (clock env (clock_reads s)
                                             - ts * us_per_ms))]
               ∧ 0 < ts ∧ ts * us_per_ms < t
               ∧ polled consumer (calls s) (calls s') ts).
Proof.
  pose proof (calls_prefix_of_issues
                (find_unused_topic env consumer t unused topic) s) as Hprefix.
  destruct (find_unused_topic env consumer t unused topic s) as [o s'] eqn:Hrun.
  cbn [snd] in Hprefix.
  assert (calls s `prefix_of` calls s') as Hcalls.
  { apply Hprefix. apply issues_find_unused_topic; done. }
  clear Hprefix.
  unfold find_unused_topic, try_except, find_unused_topic_try in Hrun.
  destruct (partitions_for_topic consumer (calls s) topic)
    as [[[|p ps]|]|e] eqn:H1.
  - rewrite (bind_consumer_call_Ok _ _ _ _ _ H1) in Hrun.
    injection Hrun as <- <-. eexists unused, _, [].
    rewrite app_nil_r. split_and!; auto.
  - rewrite (bind_consumer_call_Ok _ _ _ _ _ H1) in Hrun.
    destruct (end_offsets consumer
                (calls (logged (Consumer (CPartitionsForTopic topic)) s))
                (p :: ps)) as [offsets|e] eqn:H2.
    + rewrite (bind_consumer_call_Ok _ _ _ _ _ H2) in Hrun.
      unfold bind at 1 in Hrun.
      pose proof (no_exit_inspect_partitions consumer offsets (p :: ps) 0
                    (logged (Consumer (CEndOffsets (p :: ps)))
                       (logged (Consumer (CPartitionsForTopic topic)) s)))
        as Hno_exit.
      destruct (inspect_partitions consumer offsets (p :: ps) 0 _)
        as [[ts|e|c] s3] eqn:H3; cbn [fst] in Hno_exit.
      * apply inspect_partitions_Ret in H3
          as (Hcalls3 & Hconsole3 & Hclock3 & Hle & Hts).
        repeat rewrite console_logged in *.
        repeat rewrite clock_reads_logged in *.
        repeat rewrite calls_logged in *.
        destruct ((ts >? 0) && (ts * us_per_ms <? t)) eqn:Hcond.
        -- rewrite bind_now in Hrun. injection Hrun as <- <-.
           apply andb_true_iff in Hcond as [Hpos Hold].
           apply Z.gtb_lt in Hpos. apply Z.ltb_lt in Hold.
           eexists _, _, []. split; [done|].
           rewrite console_ticked, clock_reads_ticked, calls_ticked in *.
           rewrite app_nil_r. split; [done|]. split; [by left|].
           split; [done|]. split; [lia|]. right. exists ts.
           rewrite Hclock3. split; [done|]. split; [done|]. split; [done|].
           destruct Hts as [->|Hpolled]; [lia|].
           eapply polled_weaken; [exact Hpolled| |done].
           rewrite <- app_assoc. by apply prefix_app_r.
        -- injection Hrun as <- <-. eexists unused, _, [].
           rewrite app_nil_r. split_and!; auto. lia.
      * injection Hrun as <- <-. eexists unused, _, [UnusedWarning topic e].
        split; [done|].
        assert (console s3 = console s ∧ clock_reads s3 = clock_reads s)
          as [Hc3 Hk3].
        { pose proof (quiet_inspect_partitions consumer offsets (p :: ps) 0
                        (logged (Consumer (CEndOffsets (p :: ps)))
                           (logged (Consumer (CPartitionsForTopic topic)) s)))
            as Hquiet.
          by rewrite H3 in Hquiet. }
        cbn [console clock_reads calls] in *. rewrite Hc3, Hk3.
        split_and!; eauto.
      * by destruct (Hno_exit c).
    + rewrite (bind_consumer_call_Raise _ _ _ _ _ H2) in Hrun.
      injection Hrun as <- <-. eexists unused, _, [UnusedWarning topic e].
      split_and!; eauto.
  - rewrite (bind_consumer_call_Ok _ _ _ _ _ H1) in Hrun.
    injection Hrun as <- <-. eexists unused, _, [].
    rewrite app_nil_r. split_and!; auto.
  - rewrite (bind_consumer_call_Raise _ _ _ _ _ H1) in Hrun.
    injection Hrun as <- <-. eexists unused, _, [UnusedWarning topic e].
    split_and!; eauto.
Qed.



(** The scan of the topics: it returns; it prints warnings only; and every
    topic it adds to the list comes with a positive timestamp obtained from
    a poll. *)
Lemma find_unused_in_run env consumer t topics unused s :
  ∃ unused' s' ws,
    find_unused_in env consumer t topics unused s = (Ret unused', s')
    ∧ console s' = console s ++ ws
    ∧ Forall is_unused_warning ws
    ∧ calls s `prefix_of` calls s'
    ∧ (clock_reads s ≤ clock_reads s')%nat
    ∧ ∀ topic r,
        (topic, r) ∈ unused' →
        (topic, r) ∈ unused
        ∨ (topic ∈ topics
           ∧ ∃ ts k, r = DaysOld (clock env k - ts * us_per_ms)
                     ∧ (clock_reads s ≤ k)%nat
                     ∧ 0 < ts ∧ ts * us_per_ms < t
                     ∧ polled consumer (calls s) (calls s') ts).
Proof.
  revert unused s. induction topics as [|topic topics IH]; intros unused s.
  - exists unused, s, []. rewrite app_nil_r. split_and!; auto.
  - cbn [find_unused_in].
    destruct (find_unused_topic_run env consumer t unused topic s)
      as (unused1 & s1 & ws1 & Hrun1 & Hc1 & Hws1 & Hcalls1 & Hk1 & Hadd1).
    rewrite (bind_run _ _ _ _ _ Hrun1).
    destruct (IH unused1 s1)
      as (unused2 & s2 & ws2 & Hrun2 & Hc2 & Hws2 & Hcalls2 & Hk2 & Hadd2).
    exists unused2, s2, (ws1 ++ ws2). split; [done|].
    split; [by rewrite Hc2, Hc1, <- app_assoc|].
    split.
    { apply Forall_app. split; [|done].
      destruct Hws1 as [->|[e ->]]; [done|].
      apply Forall_singleton. by exists topic, e. }
    split; [by etrans|]. split; [lia|].
    intros topic' r Hin. apply Hadd2 in Hin as [Hin|(Htopic & ts & k & Hr)].
    + destruct Hadd1 as [->|(ts & -> & Hpos & Hold & Hpolled)]; [by left|].
      apply elem_of_app in Hin as [Hin|Hin]; [by left|].
      apply list_elem_of_singleton in Hin. injection Hin as -> ->.
      right. split; [left|]. exists ts, (clock_reads s).
      split; [done|]. split; [done|]. split; [done|]. split; [done|].
      eapply polled_weaken; [exact Hpolled|done|done].
    + right. split; [by right|]. exists ts, k.
      destruct Hr as (-> & Hk & Hpos & Hold & Hpolled).
      split; [done|]. split; [lia|]. split; [done|]. split; [done|].
      eapply polled_weaken; [exact Hpolled|done|done].
Qed.


Lemma get_consumer_Ret env s consumer s1 :
  _get_consumer env s = (Ret consumer, s1) →
  console s1 = console s ∧ self_consumer s1 = Some consumer
  ∧ self_admin_client s1 = self_admin_client s
  ∧ clock_reads s1 = clock_reads s
  ∧ calls s `prefix_of` calls s1.
Proof.
  unfold _get_consumer, _get_bootstrap_servers.
  destruct (self_consumer s) as [c|] eqn:Hc.
  - intros [= <- <-]. split_and!; auto.
  - unfold bind. destruct (bootstrap_servers env) as [servers|e]; simpl.
    + destruct (new_consumer env _) as [c|e]; simpl; [|discriminate].
      intros [= <- <-]. simpl. split_and!; auto. by apply prefix_app_r.
    + discriminate.
Qed.

Lemma get_consumer_echoed env l s consumer s1 :
  _get_consumer env s = (Ret consumer, s1) →
  _get_consumer env (echoed l s) = (Ret consumer, echoed l s1).
Proof.
  unfold _get_consumer, _get_bootstrap_servers. simpl.
  destruct (self_consumer s) as [c|] eqn:Hc.
  - intros [= <- <-]. done.
  - unfold bind. destruct (bootstrap_servers env) as [servers|e]; simpl.
    + destruct (new_consumer env _) as [c|e]; simpl; [|discriminate].
      intros [= <- <-]. done.
    + discriminate.
Qed.






Lemma issues_inspection_calls consumer offsets ps ts :
  issues (inspection_call offsets)
         (inspect_partitions consumer offsets ps ts).
Proof.
  revert ts. induction ps as [|p ps IH]; intros ts; cbn.
  - apply issues_ret.
  - destruct (offsets !! p) as [e|] eqn:He; [|apply issues_raise].
    destruct (e >? 0); [|done].
    apply issues_bind; [by apply issues_consumer_call|]. intros _.
    apply issues_bind.
    { apply issues_consumer_call. cbn. rewrite He. f_equal. lia. }
    intros _.
    apply issues_bind; [by apply issues_consumer_call|]. intros messages.
    done.
Qed.




(** ** Lazy creation of the clients *)

Section Preserves.
Context (I J : State → Prop).

Lemma preserves_ret {A} (a : A) : preserves I J (ret a).
Proof. by intros s Hs. Qed.

Lemma preserves_raise {A} (e : exn) : preserves I J (raise (A := A) e).
Proof. by intros s Hs. Qed.

Lemma preserves_lift {A} (r : result A) : preserves I J (lift r).
Proof. destruct r; [apply preserves_ret|apply preserves_raise]. Qed.

Lemma preserves_sys_exit {A} (c : Z) :
  (∀ s, I s → J s) → preserves I J (sys_exit (A := A) c).
Proof. intros HIJ s Hs. by apply HIJ. Qed.

Lemma preserves_bind {A B} (m : M A) (k : A → M B) :
  preserves I J m → (∀ a, preserves I J (k a)) → preserves I J (bind m k).
Proof.
  intros Hm Hk s Hs. unfold bind. specialize (Hm s Hs).
  destruct (m s) as [[a|e|c] s1]; cbn [fst snd] in *; [|done..].
  by apply Hk.
Qed.

Lemma preserves_try_except {A} (m : M A) (h : exn → M A) :
  preserves I J m → (∀ e, preserves I J (h e)) →
  preserves I J (try_except m h).
Proof.
  intros Hm Hh s Hs. unfold try_except. specialize (Hm s Hs).
  destruct (m s) as [[a|e|c] s1]; cbn [fst snd] in *; [done| |done].
  by apply Hh.
Qed.
End Preserves.

(** States that differ in the console and the clock only have the same
    clients and the same call log. *)
Lemma lazily_created_echoed l s : lazily_created s → lazily_created (echoed l s).
Proof. done. Qed.

Lemma lazily_created_ticked s : lazily_created s → lazily_created (ticked s).
Proof. done. Qed.

Lemma lazily_created_logged c s :
  is_new_admin c = false → is_new_consumer c = false →
  lazily_created s → lazily_created (logged c s).
Proof.
  intros Ha Hc [H1 H2]. unfold lazily_created, admin_created, consumer_created.
  rewrite calls_logged, !List.filter_app. cbn [List.filter].
  rewrite Ha, Hc, !app_nil_r. done.
Qed.

Lemma lazily_created_once s : lazily_created s → created_once s.
Proof.
  intros [H1 H2]. split.
  - destruct (self_admin_client s); lia.
  - destruct (self_consumer s); lia.
Qed.

Section LazyClients.
Context (env : Env).

Lemma lazy_echo l : preserves lazily_created created_once (echo l).
Proof. intros s Hs. by apply lazily_created_echoed. Qed.

Lemma lazy_now : preserves lazily_created created_once (now env).
Proof. intros s Hs. by apply lazily_created_ticked. Qed.

Lemma lazy_admin_call {A} (c : AdminCall) (r : result A) :
  preserves lazily_created created_once (admin_call c r).
Proof.
  intros s Hs. unfold admin_call. rewrite bind_log_call.
  pose proof (lazily_created_logged (Admin c) s eq_refl eq_refl Hs).
  by destruct r.
Qed.

Lemma lazy_consumer_call {A} (c : ConsumerCall) (r : list Call → result A) :
  preserves lazily_created created_once (consumer_call c r).
Proof.
  intros s Hs. unfold consumer_call. rewrite bind_log_call.
  pose proof (lazily_created_logged (Consumer c) s eq_refl eq_refl Hs).
  by destruct (r (calls s)).
Qed.

Lemma lazy_echo_all lines : preserves lazily_created created_once (echo_all lines).
Proof.
  induction lines as [|l lines IH]; [apply preserves_ret|].
  apply preserves_bind; [apply lazy_echo|done].
Qed.

(** The constructor of the admin client is called only when the field is
    [None], and the field is set as soon as it returns. *)
Lemma lazy_get_admin_client :
  preserves lazily_created created_once (_get_admin_client env).
Proof.
  intros s Hs. pose proof Hs as [Ha Hc].
  unfold _get_admin_client, _get_bootstrap_servers.
  destruct (self_admin_client s) as [c|] eqn:Hfield; [exact Hs|].
  unfold bind. destruct (bootstrap_servers env) as [servers|e]; cbn.
  - destruct (new_admin_client env _) as [c|e]; cbn.
    + unfold lazily_created, admin_created, consumer_created in *. cbn.
      rewrite !List.filter_app. cbn. rewrite !length_app. cbn.
      split; [lia|]. by rewrite Nat.add_0_r.
    + unfold created_once, admin_created, consumer_created in *. cbn.
      rewrite !List.filter_app. cbn. rewrite !length_app. cbn.
      split; [lia|]. destruct (self_consumer s); lia.
  - by apply lazily_created_once.
Qed.

Lemma lazy_get_consumer :
  preserves lazily_created created_once (_get_consumer env).
Proof.
  intros s Hs. pose proof Hs as [Ha Hc].
  unfold _get_consumer, _get_bootstrap_servers.
  destruct (self_consumer s) as [c|] eqn:Hfield; [exact Hs|].
  unfold bind. destruct (bootstrap_servers env) as [servers|e]; cbn.
  - destruct (new_consumer env _) as [c|e]; cbn.
    + unfold lazily_created, admin_created, consumer_created in *. cbn.
      rewrite !List.filter_app. cbn. rewrite !length_app. cbn.
      split; [by rewrite Nat.add_0_r|lia].
    + unfold created_once, admin_created, consumer_created in *. cbn.
      rewrite !List.filter_app. cbn. rewrite !length_app. cbn.
      split; [|lia]. destruct (self_admin_client s); lia.
  - by apply lazily_created_once.
Qed.
End LazyClients.

Ltac lazy_step :=
  first
    [ apply preserves_ret | apply preserves_raise | apply preserves_lift
    | apply lazy_echo | apply lazy_now | apply lazy_echo_all
    | apply lazy_admin_call | apply lazy_consumer_call
    | apply lazy_get_admin_client | apply lazy_get_consumer
    | apply preserves_bind; [|intros ?]
    | apply preserves_try_except; [|intros ?]
    | match goal with
      | |- preserves _ _ (match ?x with _ => _ end) => destruct x
      end ].

Section LazyCommands.
Context (env : Env).

Lemma lazy_health_check :
  preserves lazily_created created_once (health_check env).
Proof. unfold health_check. repeat lazy_step. Qed.

Lemma lazy_check_lag_groups admin groups gl :
  preserves lazily_created created_once (check_lag_groups admin groups gl).
Proof.
  revert gl. induction groups as [|g groups IH]; intros gl; cbn.
  - apply preserves_ret.
  - apply preserves_bind; [|done].
    unfold check_lag_group, check_lag_group_try. repeat lazy_step.
Qed.

Lemma lazy_report_lags t items high :
  preserves lazily_created created_once (report_lags t items high).
Proof.
  revert high. induction items as [|[g lag] items IH]; intros high; cbn.
  - apply preserves_ret.
  - destruct (lag >? t); (apply preserves_bind; [apply lazy_echo|done]).
Qed.

Lemma lazy_check_lag : preserves lazily_created created_once (check_lag env).
Proof.
  unfold check_lag.
  apply preserves_bind; [apply lazy_echo|]. intros _.
  apply preserves_bind; [apply lazy_get_admin_client|]. intros admin.
  apply preserves_try_except; [|intros; apply lazy_echo].
  apply preserves_bind; [apply lazy_admin_call|]. intros groups.
  apply preserves_bind; [apply lazy_check_lag_groups|]. intros gl.
  destruct gl; [apply lazy_echo|].
  apply preserves_bind; [apply lazy_echo|]. intros _.
  apply preserves_bind; [apply lazy_report_lags|]. intros high.
  destruct high; apply lazy_echo.
Qed.

Lemma lazy_find_stale_groups admin t groups stale :
  preserves lazily_created created_once
            (find_stale_groups env admin t groups stale).
Proof.
  revert stale. induction groups as [|g groups IH]; intros stale; cbn.
  - apply preserves_ret.
  - apply preserves_bind; [|done].
    unfold find_stale_group, find_stale_group_try. repeat lazy_step.
Qed.

Lemma lazy_find_stale_consumers :
  preserves lazily_created created_once (find_stale_consumers env).
Proof.
  unfold find_stale_consumers.
  apply preserves_bind; [apply lazy_echo|]. intros _.
  apply preserves_bind; [apply lazy_get_admin_client|]. intros admin.
  apply preserves_bind; [apply lazy_now|]. intros t0.
  apply preserves_try_except; [|intros; apply lazy_echo].
  apply preserves_bind; [apply lazy_admin_call|]. intros groups.
  apply preserves_bind; [apply lazy_find_stale_groups|]. intros stale.
  destruct stale; repeat lazy_step.
Qed.

Lemma lazy_inspect_partitions consumer offsets ps ts :
  preserves lazily_created created_once
            (inspect_partitions consumer offsets ps ts).
Proof.
  revert ts. induction ps as [|p ps IH]; intros ts; cbn.
  - apply preserves_ret.
  - destruct (offsets !! p) as [e|]; [|apply preserves_raise].
    destruct (e >? 0); [|done].
    repeat (apply preserves_bind; [apply lazy_consumer_call|intros ?]).
    done.
Qed.

Lemma lazy_find_unused_in consumer t topics unused :
  preserves lazily_created created_once
            (find_unused_in env consumer t topics unused).
Proof.
  revert unused. induction topics as [|topic topics IH]; intros unused; cbn.
  - apply preserves_ret.
  - apply preserves_bind; [|done].
    unfold find_unused_topic, find_unused_topic_try.
    apply preserves_try_except; [|intros; repeat lazy_step].
    apply preserves_bind; [apply lazy_consumer_call|].
    intros [[|p ps]|]; try apply preserves_ret.
    apply preserves_bind; [apply lazy_consumer_call|]. intros offsets.
    apply preserves_bind; [apply lazy_inspect_partitions|]. intros ts.
    destruct (_ && _); repeat lazy_step.
Qed.

Lemma lazy_find_unused_topics :
  preserves lazily_created created_once (find_unused_topics env).
Proof.
  unfold find_unused_topics.
  apply preserves_bind; [apply lazy_echo|]. intros _.
  apply preserves_bind; [apply lazy_get_admin_client|]. intros admin.
  apply preserves_bind; [apply lazy_get_consumer|]. intros consumer.
  apply preserves_bind; [apply lazy_now|]. intros t0.
  apply preserves_try_except; [|intros; apply lazy_echo].
  apply preserves_bind; [apply lazy_admin_call|]. intros topics.
  apply preserves_bind; [apply lazy_find_unused_in|]. intros unused.
  destruct unused; repeat lazy_step.
Qed.

Lemma lazy_delete_consumer_group name :
  preserves lazily_created created_once (delete_consumer_group env name).
Proof.
  unfold delete_consumer_group, click_prompt.
  apply preserves_bind; [apply lazy_get_admin_client|]. intros admin.
  apply preserves_bind; [apply preserves_ret|]. intros confirm.
  destruct (negb _); repeat lazy_step.
Qed.

Lemma lazy_delete_topic name :
  preserves lazily_created created_once (delete_topic env name).
Proof.
  unfold delete_topic, click_prompt.
  apply preserves_bind; [apply lazy_get_admin_client|]. intros admin.
  apply preserves_bind; [apply preserves_ret|]. intros confirm.
  destruct (negb _); repeat lazy_step.
Qed.

Lemma lazy_run_command cmd :
  preserves lazily_created created_once (run_command env cmd).
Proof.
  destruct cmd; cbn.
  - apply lazy_health_check.
  - apply lazy_check_lag.
  - apply lazy_find_stale_consumers.
  - apply lazy_find_unused_topics.
  - apply lazy_delete_consumer_group.
  - apply lazy_delete_topic.
Qed.
End LazyCommands.

Lemma lazily_created_init : lazily_created init_state.
Proof. split; cbn; lia. Qed.

(** Whatever the command and the environment, one process invocation calls
    each client constructor at most once. *)
Lemma cli_creates_clients_once env cmd : created_once (cli env cmd).2.
Proof.
  pose proof (lazy_run_command env cmd init_state lazily_created_init) as H.
  unfold cli. destruct (run_command env cmd init_state).1;
    [by apply lazily_created_once| by apply lazily_created_once|done].
Qed.

(** A second request for a client returns the instance that the first one
    stored, without any call. *)
Lemma get_admin_client_again env s admin s1 :
  _get_admin_client env s = (Ret admin, s1) →
  _get_admin_client env s1 = (Ret admin, s1).
Proof.
  intros H. apply get_admin_client_Ret in H as (_ & Hfield & _).
  unfold _get_admin_client. by rewrite Hfield.
Qed.

Lemma get_consumer_again env s consumer s1 :
  _get_consumer env s = (Ret consumer, s1) →
  _get_consumer env s1 = (Ret consumer, s1).
Proof.
  intros H. apply get_consumer_Ret in H as (_ & Hfield & _).
  unfold _get_consumer. by rewrite Hfield.
Qed.

(** No command of the command line releases a connection. *)
Lemma cli_never_closes env cmd c :
  c ∈ calls (cli env cmd).2 → ¬ is_close c.
Proof.
  unfold cli. intros Hin.
  destruct (issues_run_command (λ c, ¬ is_close c) env) with (cmd := cmd)
                                                             (s := init_state)
    as (new & Hcalls & Hnew).
  - intros cfg [H|H]; discriminate H.
  - intros cfg _ [H|H]; discriminate H.
  - intros c' Hc' [H|H]; [congruence|discriminate H].
  - intros c' _ Hc' [H|H]; [discriminate H|congruence].
  - rewrite Hcalls, app_nil_l in Hin. rewrite Forall_forall in Hnew.
    by apply Hnew.
Qed.


(** C7 (the command line leaves its connections open).  Running the
    [health-check] command on a reachable cluster constructs the admin
    client, stores it, and ends without a [close] call; running
    [find unused-topics] does the same with both clients. *)
Theorem cli_leaves_connections_open :
  (∃ cfg, NewAdmin cfg ∈ calls (cli health_env CmdHealthCheck).2)
  ∧ is_Some (self_admin_client (cli health_env CmdHealthCheck).2)
  ∧ (cli health_env CmdHealthCheck).1 = Ret tt
  ∧ (Admin AClose ∉ calls (cli health_env CmdHealthCheck).2)
  ∧ (∃ cfg, NewConsumer cfg ∈ calls (cli orders_env CmdFindUnusedTopics).2)
  ∧ is_Some (self_consumer (cli orders_env CmdFindUnusedTopics).2)
  ∧ (Admin AClose ∉ calls (cli orders_env CmdFindUnusedTopics).2)
  ∧ (Consumer CClose ∉ calls (cli orders_env CmdFindUnusedTopics).2).
Proof.
  split_and!.
  - eexists. apply list_elem_of_In. vm_compute. left. reflexivity.
  - vm_compute. by eexists.
  - vm_compute. reflexivity.
  - intros Hin. apply list_elem_of_In in Hin. vm_compute in Hin.
    intuition discriminate.
  - eexists. apply list_elem_of_In. vm_compute. right. left. reflexivity.
  - vm_compute. by eexists.
  - intros Hin. apply list_elem_of_In in Hin. vm_compute in Hin.
    intuition discriminate.
  - intros Hin. apply list_elem_of_In in Hin. vm_compute in Hin.
    intuition discriminate.
Qed.

(** * Further properties of the program *)

(** ** Failures of the metadata reads *)

(** X1. When [describe_cluster] fails, [health_check] prints the error line
    and nothing else: no report, no verdict, and no further call to the
    client; the command returns normally. *)
Theorem health_check_reports_metadata_failure env s admin s1 e :
  _get_admin_client env s = (Ret admin, s1) →
  describe_cluster admin = Raise e →
  (health_check env s).1 = Ret tt
  ∧ console (health_check env s).2
    = console s ++ [HealthChecking; HealthError e]
  ∧ calls (health_check env s).2 = calls s1 ++ [Admin ADescribeCluster].
Proof.
  intros Hadmin Hmd. unfold health_check. rewrite bind_echo.
  rewrite (bind_run _ _ _ _ _ (get_admin_client_echoed _ HealthChecking _ _ _
                                 Hadmin)).
  apply get_admin_client_Ret in Hadmin as (Hc1 & _).
  unfold try_except. rewrite (bind_admin_call_Raise _ _ _ _ _ Hmd).
  split; [done|]. split.
  - cbn. by rewrite Hc1, <- app_assoc.
  - done.
Qed.

Lemma health_check_reports_metadata_failure_witness :
  console (health_check (unreadable_env "") init_state).2
  = [HealthChecking; HealthError "metadata request timed out"].
Proof.
  exact (proj1 (proj2 (health_check_reports_metadata_failure
                         (unreadable_env "") init_state unreadable_admin _ _
                         eq_refl eq_refl))).
Defined.

(** ** The report of [check_lag] when no lag can be computed *)

Lemma lag_of_group_computable admin g :
  (∃ lag, lag_of_group admin g = Ok (Some lag)) ↔ lag_computable admin g.
Proof.
  unfold lag_of_group, lag_computable. split.
  - intros [lag Hlag].
    destruct (list_consumer_group_offsets admin g) as [committed|e];
      [|discriminate].
    destruct (dict_is_empty committed) eqn:Hempty; [discriminate|].
    destruct (get_topic_end_offsets admin (dict_keys committed))
      as [latest|e] eqn:Hlatest; [|discriminate].
    exists committed, latest. split; [done|]. split; [|done].
    by apply dict_is_empty_false.
  - intros (committed & latest & -> & Hne & ->).
    apply dict_is_empty_false in Hne. rewrite Hne. by eexists.
Qed.

Lemma lag_steps_head admin groups g l gl :
  foldl (lag_step admin) [] groups = (g, l) :: gl →
  g ∈ groups ∧ lag_computable admin g.
Proof.
  intros Hgl. pose proof (lag_steps_get admin groups [] g) as Hget.
  rewrite Hgl in Hget. cbn in Hget. rewrite decide_True in Hget by done.
  destruct (lag_of_group admin g) as [[lag|]|e] eqn:Hlag; try discriminate.
  destruct (decide (g ∈ groups)); [|discriminate].
  split; [done|]. apply lag_of_group_computable. by exists lag.
Qed.

Lemma lag_steps_nil admin groups :
  foldl (lag_step admin) [] groups = []
  ↔ ¬ ∃ g, g ∈ groups ∧ lag_computable admin g.
Proof.
  split.
  - intros Hnil (g & Hg & Hcomp).
    apply lag_of_group_computable in Hcomp as [lag Hlag].
    pose proof (lag_steps_get admin groups [] g) as Hget.
    rewrite Hlag, decide_True, Hnil in Hget by done. discriminate.
  - intros Hnone.
    destruct (foldl (lag_step admin) [] groups) as [|[g l] gl] eqn:Hgl;
      [done|].
    exfalso. apply Hnone. exists g. by eapply lag_steps_head.
Qed.

(** X2. [check_lag] prints "No consumer groups found or accessible." exactly
    when no listed group has a computable lag, which includes the case of
    groups that exist but have never committed or whose offsets cannot be
    read; the report header is then not printed.  Otherwise the header is
    printed and the message is not. *)
Theorem check_lag_no_groups_message env s admin s1 groups :
  _get_admin_client env s = (Ret admin, s1) →
  list_consumer_groups admin = Ok groups →
  ∃ out,
    console (check_lag env s).2 = console s ++ out
    ∧ (LagNoGroups ∈ out ↔ ¬ ∃ g, g ∈ groups ∧ lag_computable admin g)
    ∧ (LagReportHeader ∈ out ↔ ∃ g, g ∈ groups ∧ lag_computable admin g).
Proof.
  intros Hadmin Hgroups.
  destruct (check_lag_run env s admin s1 groups Hadmin Hgroups)
    as (s' & Hrun & Hconsole).
  eexists. split; [by rewrite Hrun|].
  pose proof (lag_steps_nil admin groups) as Hnil.
  assert (∀ l, l ∈ mjoin (lag_warning admin <$> groups) →
               l ≠ LagNoGroups ∧ l ≠ LagReportHeader) as Hwarn.
  { intros l Hl. apply elem_of_lag_warnings in Hl as (g & e & _ & _ & ->).
    done. }
  unfold lag_report, lag_summary.
  destruct (foldl (lag_step admin) [] groups) as [|[g0 l0] gl] eqn:Hgl.
  - assert (¬ ∃ g, g ∈ groups ∧ lag_computable admin g) as Hnone
      by by apply Hnil.
    split.
    + split; [done|]. intros _.
      rewrite !elem_of_app, !list_elem_of_singleton. auto.
    + split; [|done].
      rewrite !elem_of_app, !list_elem_of_singleton.
      intros [H|[H|H]]; [discriminate|by apply Hwarn in H as [_ ?]|
                          discriminate].
  - assert (∃ g, g ∈ groups ∧ lag_computable admin g) as Hsome.
    { exists g0. by eapply lag_steps_head. }
    split.
    + split; [|done]. intros H.
      apply elem_of_app in H as [H|H];
        [apply list_elem_of_singleton in H; discriminate|].
      apply elem_of_app in H as [H|H]; [by apply Hwarn in H as [? _]|].
      apply elem_of_app in H as [H|H];
        [apply list_elem_of_singleton in H; discriminate|].
      apply elem_of_app in H as [H|H].
      * apply list_elem_of_fmap in H as ([g' l'] & H & _).
        unfold lag_line in H. cbn in H. destruct (l' >? _); discriminate.
      * apply list_elem_of_singleton in H.
        destruct (List.filter _ ((g0, l0) :: gl)); discriminate.
    + split; [done|]. intros _.
      apply elem_of_app. right. apply elem_of_app. right.
      apply elem_of_app. left. by apply list_elem_of_singleton.
Qed.

Lemma check_lag_no_groups_message_witness :
  LagNoGroups ∈ console (check_lag uncommitted_env init_state).2
  ∧ LagReportHeader ∈ console (check_lag (g1_env 1000) init_state).2.
Proof.
  split.
  - destruct (check_lag_no_groups_message uncommitted_env init_state
                uncommitted_admin _ ["g0"; "broken"] eq_refl eq_refl)
      as (out & -> & Hnone & _).
    apply elem_of_app. right. apply Hnone.
    intros (g & Hg & committed & latest & Hoff & Hne & _).
    apply elem_of_cons in Hg as [->|Hg].
    + cbn in Hoff. injection Hoff as <-. by apply Hne.
    + apply list_elem_of_singleton in Hg as ->. discriminate Hoff.
  - destruct (check_lag_no_groups_message (g1_env 1000) init_state g1_admin
                _ ["g0"; "g1"] eq_refl eq_refl)
      as (out & -> & _ & Hsome).
    apply elem_of_app. right. apply Hsome. exists "g1".
    split; [right; left|]. exists g1_committed, g1_latest.
    split; [reflexivity|]. split; [|reflexivity].
    apply dict_is_empty_false. vm_compute. reflexivity.
Defined.

(** ** Reported ages *)






(** ** Failures of a confirmed deletion *)

(** X5. A confirmed [delete_consumer_group] or [delete_topic] calls the
    client exactly once.  If that call raises, the error is printed as one
    line, the call is not repeated, and the command returns normally; if it
    succeeds, the success line is printed. *)
Theorem confirmed_delete_is_single_shot env s admin s1 name :
  _get_admin_client env s = (Ret admin, s1) →
  prompt_input env = "y" ∨ prompt_input env = "Y" →
  ((delete_consumer_group env name s).1 = Ret tt
   ∧ calls (delete_consumer_group env name s).2
     = calls s1 ++ [Admin (ADeleteConsumerGroups [name])]
   ∧ console (delete_consumer_group env name s).2
     = console s ++ [match delete_consumer_groups admin [name] with
                     | Ok _ => GroupDeleted name
                     | Raise e => GroupDeleteError e
                     end])
  ∧ ((delete_topic env name s).1 = Ret tt
     ∧ calls (delete_topic env name s).2
       = calls s1 ++ [Admin (ADeleteTopics [name])]
     ∧ console (delete_topic env name s).2
       = console s ++ [match delete_topics admin [name] with
                       | Ok _ => TopicDeleted name
                       | Raise e => TopicDeleteError e
                       end]).
Proof.
  intros Hadmin Hyes. split.
  - destruct (delete_consumer_group_run env s admin s1 name Hadmin)
      as (s' & -> & Hs').
    rewrite decide_True in Hs' by done. by destruct Hs'.
  - destruct (delete_topic_run env s admin s1 name Hadmin)
      as (s' & -> & Hs').
    rewrite decide_True in Hs' by done. by destruct Hs'.
Qed.

Lemma confirmed_delete_is_single_shot_witness :
  console (delete_topic (unreadable_env "y") "orders" init_state).2
  = [TopicDeleteError "not authorized"]
  ∧ (delete_topic (unreadable_env "y") "orders" init_state).1 = Ret tt
  ∧ console (delete_consumer_group (delete_env "Y") "g1" init_state).2
    = [GroupDeleted "g1"].
Proof.
  destruct (confirmed_delete_is_single_shot (unreadable_env "y") init_state
              unreadable_admin _ "orders" eq_refl (or_introl eq_refl))
    as (_ & Hret & _ & Hconsole).
  destruct (confirmed_delete_is_single_shot (delete_env "Y") init_state
              g1_admin _ "g1" eq_refl (or_intror eq_refl))
    as ((_ & _ & Hconsole') & _).
  split; [exact Hconsole|]. split; [exact Hret|exact Hconsole'].
Defined.

(** ** Connections *)

(** X6. No command of the command line ever releases a connection or
    commits an offset, whatever the cluster answers and whatever is typed:
    the call log of a process invocation contains no [close] and no
    [commit]. *)
Theorem cli_never_closes_nor_commits env cmd :
  ∀ c, c ∈ calls (cli env cmd).2 →
       c ≠ Admin AClose ∧ c ≠ Consumer CClose ∧ c ≠ Consumer CCommit.
Proof.
  intros c Hin. unfold cli in Hin.
  destruct (issues_run_command
              (λ c, c ≠ Admin AClose ∧ c ≠ Consumer CClose
                    ∧ c ≠ Consumer CCommit) env) with (cmd := cmd)
                                                       (s := init_state)
    as (new & Hcalls & Hnew).
  - done.
  - done.
  - intros c' Hc'. split_and!; congruence.
  - intros c' Hc1 Hc2. split_and!; congruence.
  - rewrite Hcalls, app_nil_l in Hin. rewrite Forall_forall in Hnew.
    by apply Hnew.
Qed.

Lemma cli_never_closes_nor_commits_witness :
  Admin ADescribeCluster ∈ calls (cli health_env CmdHealthCheck).2
  ∧ Admin ADescribeCluster ≠ Admin AClose.
Proof.
  assert (Admin ADescribeCluster ∈ calls (cli health_env CmdHealthCheck).2)
    as Hin.
  { apply list_elem_of_In. vm_compute. right. left. reflexivity. }
  split; [exact Hin|].
  exact (proj1 (cli_never_closes_nor_commits health_env CmdHealthCheck _ Hin)).
Defined.

(** X7. Whatever the command and the environment, one process invocation
    calls the constructor of the admin client at most once and the
    constructor of the consumer at most once. *)
Theorem cli_constructs_each_client_at_most_once env cmd :
  (length (List.filter is_new_admin (calls (cli env cmd).2)) ≤ 1)%nat
  ∧ (length (List.filter is_new_consumer (calls (cli env cmd).2)) ≤ 1)%nat.
Proof. apply cli_creates_clients_once. Qed.

(** ** How a command can end *)






(** How the request for a client can end: with the client, or with a
    connection error line and exit status 1. *)
Lemma get_admin_client_outcome env s :
  (∃ admin s1, _get_admin_client env s = (Ret admin, s1))
  ∨ (∃ s1 l, _get_admin_client env s = (SysExit 1, s1)
             ∧ console s1 = console s ++ [l] ∧ is_connect_error l).
Proof.
  unfold _get_admin_client, _get_bootstrap_servers.
  destruct (self_admin_client s) as [c|]; [left; by eexists _, _|].
  unfold bind. destruct (bootstrap_servers env) as [servers|e]; cbn.
  - destruct (new_admin_client env _) as [c|e]; cbn.
    + left. by eexists _, _.
    + right. eexists _, _. split; [done|]. split; [done|]. exists e. auto.
  - right. eexists _, _. split; [done|]. split; [done|]. exists e. auto.
Qed.


(** A command that first obtains the admin client and then runs a piece of
    code that always returns, returns or exits with status 1. *)
Lemma with_admin_client_outcome {A} env (k : KafkaAdminClient → M A) s :
  (∀ admin, returns (k admin)) →
  returns_or_exits_1 (bind (_get_admin_client env) k) s.
Proof.
  intros Hk. unfold returns_or_exits_1.
  destruct (get_admin_client_outcome env s)
    as [(admin & s1 & Hget)|(s1 & l & Hget & Hconsole & Hl)].
  - left. rewrite (bind_run _ _ _ _ _ Hget). apply Hk.
  - right. unfold bind. rewrite Hget. cbn. split; [done|].
    exists l. by rewrite Hconsole, last_snoc.
Qed.

Lemma returns_or_exits_1_after_echo {A} (l : Line) (m : M A) s :
  returns_or_exits_1 m (echoed l s) →
  returns_or_exits_1 (bind (echo l) (λ _, m)) s.
Proof. unfold returns_or_exits_1. by rewrite bind_echo. Qed.








(** ** Which topics are inspected *)

Lemma issues_find_unused_in_asks env consumer t topics unused :
  issues (asks_about topics) (find_unused_in env consumer t topics unused).
Proof.
  revert unused. induction topics as [|topic topics IH]; intros unused; cbn.
  - apply issues_ret.
  - apply issues_bind.
    + unfold find_unused_topic, find_unused_topic_try.
      apply issues_try_except; [|intros; repeat issues_step].
      apply issues_bind.
      { apply issues_consumer_call. intros t' [= <-]. left. }
      intros [[|p ps]|]; try apply issues_ret.
      apply issues_bind; [by apply issues_consumer_call|]. intros offsets.
      apply issues_bind.
      { apply (issues_weaken (inspection_call offsets));
          [|apply issues_inspection_calls].
        intros c Hc t' ->. destruct Hc. }
      intros ts. destruct (_ && _); repeat issues_step.
    + intros unused'. apply (issues_weaken (asks_about topics)); [|done].
      intros c Hc t' Ht'. right. by apply Hc.
Qed.

Lemma find_unused_topics_scan_calls env s admin s1 consumer s2 topics :
  _get_admin_client env s = (Ret admin, s1) →
  _get_consumer env s1 = (Ret consumer, s2) →
  list_topics admin = Ok topics →
  calls (find_unused_topics env s).2
  = calls (find_unused_in env consumer
             (clock env (clock_reads s)
              - config_get env unused_topic_days 90 * us_per_day)
             (non_internal topics) []
             (logged (Admin AListTopics)
                (ticked (echoed UnusedFinding s2)))).2.
Proof.
  intros Hadmin Hconsumer Htopics.
  unfold find_unused_topics. rewrite bind_echo.
  rewrite (bind_run _ _ _ _ _ (get_admin_client_echoed _ UnusedFinding _ _ _
                                 Hadmin)).
  rewrite (bind_run _ _ _ _ _ (get_consumer_echoed _ UnusedFinding _ _ _
                                 Hconsumer)).
  apply get_admin_client_Ret in Hadmin as (_ & _ & _ & Hk1 & _).
  apply get_consumer_Ret in Hconsumer as (_ & _ & _ & Hk2 & _).
  rewrite bind_now, clock_reads_echoed, Hk2, Hk1.
  unfold try_except. rewrite (bind_admin_call_Ok _ _ _ _ _ Htopics).
  destruct (find_unused_in_run env consumer
              (clock env (clock_reads s)
               - config_get env unused_topic_days 90 * us_per_day)
              (non_internal topics) []
              (logged (Admin AListTopics) (ticked (echoed UnusedFinding s2))))
    as (unused & s3 & ws & Hrun & _).
  rewrite (bind_run _ _ _ _ _ Hrun), Hrun. cbn [snd].
  destruct unused as [|item unused]; [done|].
  rewrite bind_echo.
  destruct (echo_all_run ((λ item, UnusedItem item.1 item.2)
                            <$> item :: unused)
              (echoed (UnusedFound (length (item :: unused))) s3))
    as (s4 & -> & _ & _ & Hcalls4).
  cbn [snd]. by rewrite Hcalls4, calls_echoed.
Qed.

(** X9. [find_unused_topics] never asks the consumer about an internal
    topic: every topic whose partitions it requests during a run is a listed
    topic whose name does not start with a double underscore. *)
Theorem unused_scan_skips_internal_topics env s admin s1 consumer s2 topics :
  _get_admin_client env s = (Ret admin, s1) →
  _get_consumer env s1 = (Ret consumer, s2) →
  list_topics admin = Ok topics →
  ∃ new,
    calls (find_unused_topics env s).2 = calls s ++ new
    ∧ ∀ t, Consumer (CPartitionsForTopic t) ∈ new →
           t ∈ topics ∧ startswith t "__" = false.
Proof.
  intros Hadmin Hconsumer Htopics.
  rewrite (find_unused_topics_scan_calls env s admin s1 consumer s2 topics
             Hadmin Hconsumer Htopics).
  destruct (issues_find_unused_in_asks env consumer
              (clock env (clock_reads s)
               - config_get env unused_topic_days 90 * us_per_day)
              (non_internal topics) []
              (logged (Admin AListTopics) (ticked (echoed UnusedFinding s2))))
    as (new & -> & Hnew).
  rewrite calls_logged, calls_ticked, calls_echoed.
  destruct (issues_get_admin_client (λ c, ∀ t, c ≠ Consumer (CPartitionsForTopic t))
              env) with (s := s) as (pre1 & Hpre1 & Hnew1); [done|].
  destruct (issues_get_consumer (λ c, ∀ t, c ≠ Consumer (CPartitionsForTopic t))
              env) with (s := s1) as (pre2 & Hpre2 & Hnew2); [done|].
  rewrite Hadmin in Hpre1. rewrite Hconsumer in Hpre2. cbn [snd] in *.
  exists (pre1 ++ pre2 ++ [Admin AListTopics] ++ new).
  split; [by rewrite Hpre2, Hpre1, <- !app_assoc|].
  intros t Hin. rewrite Forall_forall in Hnew1, Hnew2, Hnew.
  apply elem_of_app in Hin as [Hin|Hin]; [by destruct (Hnew1 _ Hin t)|].
  apply elem_of_app in Hin as [Hin|Hin]; [by destruct (Hnew2 _ Hin t)|].
  apply elem_of_app in Hin as [Hin|Hin];
    [apply list_elem_of_singleton in Hin; discriminate|].
  specialize (Hnew _ Hin t eq_refl).
  unfold non_internal in Hnew.
  apply list_elem_of_In, List.filter_In in Hnew as [Ht Hprefix].
  split; [by apply list_elem_of_In|]. by apply negb_true_iff.
Qed.

Lemma unused_scan_skips_internal_topics_witness :
  Consumer (CPartitionsForTopic "orders")
    ∈ calls (find_unused_topics orders_env init_state).2
  ∧ Consumer (CPartitionsForTopic "__consumer_offsets")
      ∉ calls (find_unused_topics orders_env init_state).2.
Proof.
  destruct (unused_scan_skips_internal_topics orders_env init_state
              orders_admin _ orders_consumer _ _ eq_refl eq_refl eq_refl)
    as (new & Hcalls & Hnew).
  split.
  - apply list_elem_of_In. vm_compute. do 3 right. left. reflexivity.
  - rewrite Hcalls, app_nil_l. intros Hin.
    apply Hnew in Hin as [_ Hprefix]. discriminate Hprefix.
Defined.

(** ** Bootstrap-server resolution *)

Lemma split_comma_not_nil s : split_comma s ≠ [].
Proof.
  destruct s as [|c s]; cbn; [done|].
  destruct (Ascii.eqb c ","); [done|]. by destruct (split_comma s).
Qed.

Lemma join_split_comma s : join_comma (split_comma s) = s.
Proof.
  induction s as [|c s IH]; [done|]. cbn [split_comma].
  destruct (Ascii.eqb c ",") eqn:Hc.
  - apply Ascii.eqb_eq in Hc as ->. cbn [join_comma].
    pose proof (split_comma_not_nil s).
    destruct (split_comma s) as [|w ws] eqn:Hs; [done|].
    by rewrite <- IH.
  - pose proof (split_comma_not_nil s).
    destruct (split_comma s) as [|w ws] eqn:Hs; [done|].
    rewrite <- IH. cbn [join_comma]. by destruct ws.
Qed.

Lemma split_comma_free s : Forall (λ w, comma_free w = true) (split_comma s).
Proof.
  induction s as [|c s IH]; cbn [split_comma].
  - by repeat constructor.
  - destruct (Ascii.eqb c ",") eqn:Hc; [by constructor|].
    destruct (split_comma s) as [|w ws]; [|inversion_clear IH].
    + repeat constructor. cbn. by rewrite Hc.
    + constructor; [|done]. cbn. by rewrite Hc.
Qed.

Lemma split_comma_app_free w s :
  comma_free w = true →
  split_comma (w +:+ String "," s) = w :: split_comma s.
Proof.
  induction w as [|c w IH]; intros Hw; [done|].
  cbn in Hw. apply andb_true_iff in Hw as [Hc Hw].
  apply negb_true_iff in Hc.
  change (String c w +:+ String "," s) with (String c (w +:+ String "," s)).
  cbn [split_comma]. by rewrite Hc, (IH Hw).
Qed.

Lemma split_comma_free_word w : comma_free w = true → split_comma w = [w].
Proof.
  induction w as [|c w IH]; intros Hw; [done|].
  cbn in Hw. apply andb_true_iff in Hw as [Hc Hw].
  apply negb_true_iff in Hc. cbn [split_comma]. by rewrite Hc, (IH Hw).
Qed.

Lemma split_join_comma l :
  l ≠ [] → Forall (λ w, comma_free w = true) l →
  split_comma (join_comma l) = l.
Proof.
  induction l as [|w ws IH]; [done|]. intros _ Hfree.
  inversion_clear Hfree as [|? ? Hw Hws]. cbn [join_comma].
  destruct ws as [|w' ws]; [by apply split_comma_free_word|].
  rewrite (split_comma_app_free _ _ Hw). f_equal. by apply IH.
Qed.
